(** * gpiozero.source_tools: the source combinators, embedded and verified

    Every function of [gpiozero/source_tools.py] is a Python generator
    function.  A generator is embedded as an iterator object: the state of
    its suspended frame together with the code that resumes it.  Resuming is
    one [next()] on the object: it yields a value and the frame to resume
    from next time, or ends the iteration, or raises. *)

From Stdlib Require Import ZArith QArith Qcanon Qround Lia Bool.
From Stdlib Require Import PrimFloat FloatOps SpecFloat.
From stdpp Require Import base list.

Set Default Proof Using "Type".
Local Open Scope Z_scope.

(** ** Exceptions, calls and pulls *)

(** The exceptions the combinators can meet. *)
Inductive exn : Set :=
| StopIteration
| RuntimeError
| ZeroDivisionError
| ValueError
| OverflowError
| IndexError
| StatisticsError.

(** The result of evaluating an expression or calling a function. *)
Inductive outcome (R : Type) : Type :=
| Returned (r : R)
| Thrown (e : exn).
Arguments Returned {R} r.
Arguments Thrown {R} e.

#[export] Instance outcome_bind : MBind outcome := λ _ _ f r,
  match r with
  | Returned x => f x
  | Thrown e => Thrown e
  end.

(** The result of one [next()] on an iterator whose state has type [S];
    [Exhausted] is the [StopIteration] of an iterator that has no more
    elements. *)
Inductive pull (A S : Type) : Type :=
| Yield (v : A) (s : S)
| Exhausted
| Raised (e : exn).
Arguments Yield {A S} v s.
Arguments Exhausted {A S}.
Arguments Raised {A S} e.

(** An iterator object. *)
Record iterator (A S : Type) : Type := Iterator {
  frame : S;
  resume : S → pull A S
}.
Arguments Iterator {A S} frame resume.
Arguments frame {A S} i.
Arguments resume {A S} i s.

(** The builtin [next(it)]. *)
Definition advance {A S : Type} (it : iterator A S) : pull A (iterator A S) :=
  match resume it (frame it) with
  | Yield v s' => Yield v (Iterator s' (resume it))
  | Exhausted => Exhausted
  | Raised e => Raised e
  end.

(** Calling a generator function binds the arguments and returns the
    generator object, suspended before the first statement of the body:
    no statement runs, so nothing is raised, before the first [next()]. *)
Definition generator_call {A G : Type} (start : G) (body : G → pull A G)
  : outcome (iterator A G) := Returned (Iterator start body).

(** What a consumer has seen when it stops pulling: the end of the
    iteration, an exception, or neither yet. *)
Inductive ending : Set :=
| Ends
| Throws (e : exn)
| Pending.

(** [consume next n s]: the values seen by a consumer that pulls at most [n]
    times from the iterator in state [s], and how the iteration stood when
    it stopped.  [list(it)] is [consume next n s] for any [n] that reaches
    [Ends] or [Throws]. *)
Fixpoint consume {A S : Type} (next : S → pull A S) (n : nat) (s : S)
  : list A * ending :=
  match n with
  | O => ([], Pending)
  | Datatypes.S n' =>
      match next s with
      | Yield v s' => let (vs, e) := consume next n' s' in (v :: vs, e)
      | Exhausted => ([], Ends)
      | Raised e => ([], Throws e)
      end
  end.

Definition consumed {A S : Type} (n : nat) (it : iterator A S)
  : list A * ending := consume (resume it) n (frame it).

(** Invoking a combinator and iterating over what it returned. *)
Definition observe {A S : Type} (n : nat) (call : outcome (iterator A S))
  : list A * ending :=
  match call with
  | Returned it => consumed n it
  | Thrown e => ([], Throws e)
  end.

Definition map_values {A B : Type} (f : A → B) (r : list A * ending)
  : list B * ending := (map f r.1, r.2).

(** The iterator of a list: [iter(xs)]. *)
Definition list_next {A : Type} (xs : list A) : pull A (list A) :=
  match xs with
  | [] => Exhausted
  | x :: xs' => Yield x xs'
  end.

Definition iter {A : Type} (xs : list A) : iterator A (list A) :=
  Iterator xs list_next.

(** [unfolds next s xs]: resumed from state [s], the iterator yields the
    elements of [xs] in order and is then exhausted. *)
Inductive unfolds {A S : Type} (next : S → pull A S) : S → list A → Prop :=
| unfolds_nil s : next s = Exhausted → unfolds next s []
| unfolds_cons s v s' vs :
    next s = Yield v s' → unfolds next s' vs → unfolds next s (v :: vs).

(** [finite it xs]: the iterator [it] is the finite sequence [xs]. *)
Definition finite {A S : Type} (it : iterator A S) (xs : list A) : Prop :=
  unfolds (resume it) (frame it) xs.

(** ** Numbers *)

(** The arithmetic the combinators use, over one numeric type; integer
    literals and integer arguments are coerced into it by [of_int], as Python
    does in mixed arithmetic.  [truediv] is [/] under
    [from __future__ import division]; [to_int] is [int()]. *)
Class Number (T : Type) : Type := {
  of_int : Z → T;
  add : T → T → T;
  sub : T → T → T;
  mul : T → T → T;
  truediv : T → T → outcome T;
  to_int : T → outcome Z
}.

(** [int()] of a fraction: the quotient of numerator by denominator, rounded
    toward zero. *)
Definition Qc_trunc (q : Qc) : Z :=
  Z.quot (Qnum (this q)) (Z.pos (Qden (this q))).

(** Exact rationals ([fractions.Fraction], always in lowest terms). *)
#[export] Instance Qc_Number : Number Qc := {|
  of_int z := Q2Qc (inject_Z z);
  add := Qcplus;
  sub := Qcminus;
  mul := Qcmult;
  truediv a b :=
    if Qc_eq_dec b (Q2Qc 0) then Thrown ZeroDivisionError
    else Returned (Qcdiv a b);
  to_int q := Returned (Qc_trunc q)
|}.

(** [int()] of a float: a finite value is cut toward zero. *)
Definition float_trunc (f : float) : outcome Z :=
  match Prim2SF f with
  | S754_nan => Thrown ValueError
  | S754_infinity _ => Thrown OverflowError
  | S754_zero _ => Returned 0
  | S754_finite s m e =>
      let a := match e with
               | Z.neg p => Z.pos m / 2 ^ Z.pos p
               | _ => Z.pos m * 2 ^ e
               end in
      Returned (if s then - a else a)
  end.

(** Binary64 floating point ([float]); [of_int z] is the float nearest to
    [z]; a division by either zero raises. *)
#[export] Instance float_Number : Number float := {|
  of_int z := SF2Prim (binary_normalize prec emax z 0 false);
  add := PrimFloat.add;
  sub := PrimFloat.sub;
  mul := PrimFloat.mul;
  truediv a b :=
    if PrimFloat.is_zero b then Thrown ZeroDivisionError
    else Returned (PrimFloat.div a b);
  to_int := float_trunc
|}.

(** An integer as an operand of a float division: the integer itself, with
    exponent 0, of any size. *)
Definition Z2SF (z : Z) : spec_float :=
  match z with
  | Z0 => S754_zero false
  | Z.pos p => S754_finite false p 0
  | Z.neg p => S754_finite true p 0
  end.

(** [a / b] for two integers, under [from __future__ import division]: the
    float nearest to the quotient, whatever the size of the two integers. *)
Definition int_truediv (a b : Z) : outcome float :=
  match b with
  | Z0 => Thrown ZeroDivisionError
  | _ =>
      match a with
      | Z0 => Returned (if b <? 0 then neg_zero else zero)
      | _ =>
          match SFdiv prec emax (Z2SF a) (Z2SF b) with
          | S754_infinity _ => Thrown OverflowError
          | q => Returned (SF2Prim q)
          end
      end
  end.

(** [float(x)]: in an operation with a float, the other operand is first
    converted to a float. *)
Class Floatable (T : Type) : Type := to_float : T → outcome float.

#[export] Instance float_Floatable : Floatable float := Returned.

(** [Fraction.__float__] is the quotient of numerator by denominator. *)
#[export] Instance Qc_Floatable : Floatable Qc :=
  λ q, int_truediv (Qnum (this q)) (Z.pos (Qden (this q))).

(** ** Elementwise unary transforms *)

Section Unary.
Context {T : Type} `{Number T} {S : Type}.
Variable next : S → pull T S.

(** [for v in values: yield 1 - v] *)
Definition inverted_next (it : S) : pull T S :=
  match next it with
  | Yield v it' => Yield (sub (of_int 1) v) it'
  | Exhausted => Exhausted
  | Raised e => Raised e
  end.

(** The body of [scaled]: [domain_size] and [range_size] are computed when
    the body starts, from immutable arguments, so every resumption sees the
    same two values.  The loop is
    [for v in values:
       yield (((v - domain_min) / domain_size) * range_size) + range_min]. *)
Definition scaled_next (range_min range_max domain_min domain_max : T)
  (it : S) : pull T S :=
  let domain_size := sub domain_max domain_min in
  let range_size := sub range_max range_min in
  match next it with
  | Yield v it' =>
      match truediv (sub v domain_min) domain_size with
      | Returned r => Yield (add (mul r range_size) range_min) it'
      | Thrown e => Raised e
      end
  | Exhausted => Exhausted
  | Raised e => Raised e
  end.

End Unary.

Definition inverted {T : Type} `{Number T} {S : Type} (values : iterator T S)
  : outcome (iterator T S) :=
  generator_call (frame values) (inverted_next (resume values)).

Definition scaled {T : Type} `{Number T} {S : Type} (values : iterator T S)
  (range_min range_max domain_min domain_max : T) : outcome (iterator T S) :=
  generator_call (frame values)
    (scaled_next (resume values) range_min range_max domain_min domain_max).

(** [((int(v * steps) / steps) * range_size) + range_min]: [steps] is an
    integer, so the quotient is one of two integers and a float, and the
    product and the sum with it are float operations. *)
Definition quantize {T : Type} `{Number T} `{Floatable T} (steps : Z)
  (range_size range_min v : T) : outcome float :=
  k ← to_int (mul v (of_int steps));
  level ← int_truediv k steps;
  size ← to_float range_size;
  low ← to_float range_min;
  Returned (level * size + low)%float.

(** The body of [quantized]:
    [for v in scaled(values, 0, 1, range_min, range_max):
       yield ((int(v * steps) / steps) * range_size) + range_min]. *)
Definition quantized_next {T : Type} `{Number T} `{Floatable T} {S : Type}
  (next : S → pull T S) (steps : Z) (range_min range_max : T) (it : S)
  : pull float S :=
  let range_size := sub range_max range_min in
  match scaled_next next (of_int 0) (of_int 1) range_min range_max it with
  | Yield v it' =>
      match quantize steps range_size range_min v with
      | Returned q => Yield q it'
      | Thrown e => Raised e
      end
  | Exhausted => Exhausted
  | Raised e => Raised e
  end.

Definition quantized {T : Type} `{Number T} `{Floatable T} {S : Type}
  (values : iterator T S) (steps : Z) (range_min range_max : T)
  : outcome (iterator float S) :=
  generator_call (frame values)
    (quantized_next (resume values) steps range_min range_max).

(** ** Elementwise n-ary aggregation *)

Section Zipping.
Context {A S : Type}.
Variable next : S → pull A S.

(** One step of [zip] over at least one iterator: the iterators are pulled
    in argument order and the first one that is exhausted (or raises) ends
    the step; what was pulled from the earlier ones is dropped. *)
Fixpoint zip_pulls (its : list S) : pull (list A) (list S) :=
  match its with
  | [] => Yield [] []
  | it :: rest =>
      match next it with
      | Yield v it' =>
          match zip_pulls rest with
          | Yield vs rest' => Yield (v :: vs) (it' :: rest')
          | Exhausted => Exhausted
          | Raised e => Raised e
          end
      | Exhausted => Exhausted
      | Raised e => Raised e
      end
  end.

(** [zip()] of no iterator at all is the empty iterator. *)
Definition zip_next (its : list S) : pull (list A) (list S) :=
  match its with
  | [] => Exhausted
  | _ :: _ => zip_pulls its
  end.

(** The loop [for v in zip(...): yield f(v)], [f] possibly raising. *)
Definition zipped_next {B : Type} (f : list A → outcome B) (its : list S)
  : pull B (list S) :=
  match zip_next its with
  | Yield vs its' =>
      match f vs with
      | Returned b => Yield b its'
      | Thrown e => Raised e
      end
  | Exhausted => Exhausted
  | Raised e => Raised e
  end.

(** Truth value testing of the elements, as [all] and [any] apply it. *)
Variable truth : A → bool.

(** [for v in zip(...): yield all(v)] *)
Definition conjunction_next : list S → pull bool (list S) :=
  zipped_next (λ vs, Returned (forallb truth vs)).

(** [for v in zip(...): yield any(v)] *)
Definition disjunction_next : list S → pull bool (list S) :=
  zipped_next (λ vs, Returned (existsb truth vs)).

End Zipping.

(** Modelled from the spec: [mean] ([statistics.mean], or the fallback of
    [gpiozero/compat.py], which is not among the sources) is the arithmetic
    mean of the pulled elements, and rejects empty data. *)
Definition mean {T : Type} `{Number T} (vs : list T) : outcome T :=
  match vs with
  | [] => Thrown StatisticsError
  | _ :: _ =>
      truediv (fold_left add vs (of_int 0)) (of_int (Z.of_nat (length vs)))
  end.

(** [for v in zip(...): yield mean(v)] *)
Definition averaged_next {T : Type} `{Number T} {S : Type}
  (next : S → pull T S) : list S → pull T (list S) := zipped_next next mean.

(** The three combinators take their input sequences as separate iterator
    objects, each with a frame of its own. *)
Definition conjunction {A S : Type} (truth : A → bool)
  (values : list (iterator A S)) : outcome (iterator bool (list (iterator A S))) :=
  generator_call values (conjunction_next advance truth).

Definition disjunction {A S : Type} (truth : A → bool)
  (values : list (iterator A S)) : outcome (iterator bool (list (iterator A S))) :=
  generator_call values (disjunction_next advance truth).

Definition averaged {T : Type} `{Number T} {S : Type}
  (values : list (iterator T S)) : outcome (iterator T (list (iterator T S))) :=
  generator_call values (averaged_next advance).

(** ** The bounded buffer *)

(** [range(n)], for an integer [n]: empty when [n <= 0]. *)
Definition range (n : Z) : list nat := seq 0 (Z.to_nat n).

(** [itertools.cycle]: what is left of the current pass, and the saved
    elements; it ends only when there is nothing to repeat. *)
Definition cycle {B : Type} (l : list B) : list B * list B := (l, l).

Definition cycle_next {B : Type} (c : list B * list B)
  : pull B (list B * list B) :=
  match c.1 with
  | x :: cur => Yield x (cur, c.2)
  | [] =>
      match c.2 with
      | x :: cur => Yield x (cur, c.2)
      | [] => Exhausted
      end
  end.

Section Queued.
Context {A S : Type}.
Variable next : S → pull A S.

(** Whether PEP 479 is in force (Python 3.7 and later): a [StopIteration]
    that escapes a generator body is then turned into a [RuntimeError];
    before, it ended the generator like a [return]. *)
Variable generator_stop : bool.

(** The frame of [queued]: not yet started, or suspended at [yield q[i]]. *)
Inductive queued_frame : Type :=
| QCreated (values : S) (qsize : Z)
| QSuspended (q : list A) (i : nat) (cyc : list nat * list nat) (it : S).

(** [for i in range(qsize): q.append(next(it))]; [Exhausted] here is the
    [StopIteration] raised by [next(it)], which nothing catches. *)
Fixpoint fill (indices : list nat) (q : list A) (it : S) : pull (list A) S :=
  match indices with
  | [] => Yield q it
  | _ :: rest =>
      match next it with
      | Yield v it' => fill rest (q ++ [v]) it'
      | Exhausted => Exhausted
      | Raised e => Raised e
      end
  end.

Definition escaping_stop : pull A queued_frame :=
  if generator_stop then Raised RuntimeError else Exhausted.

(** The head of [for i in cycle(range(qsize))] followed by [yield q[i]]. *)
Definition queued_loop (q : list A) (cyc : list nat * list nat) (it : S)
  : pull A queued_frame :=
  match cycle_next cyc with
  | Yield i cyc' =>
      match q !! i with
      | Some v => Yield v (QSuspended q i cyc' it)
      | None => Raised IndexError
      end
  | Exhausted => Exhausted
  | Raised e => Raised e
  end.

(** The body of [queued].  Resumed after [yield q[i]], it runs
    [try: q[i] = next(it)] and [except StopIteration: break]. *)
Definition queued_next (g : queued_frame) : pull A queued_frame :=
  match g with
  | QCreated values qsize =>
      match fill (range qsize) [] values with
      | Yield q it => queued_loop q (cycle (range qsize)) it
      | Exhausted => escaping_stop
      | Raised e => Raised e
      end
  | QSuspended q i cyc it =>
      match next it with
      | Yield v it' =>
          if decide (i < length q)%nat then queued_loop (<[i:=v]> q) cyc it'
          else Raised IndexError
      | Exhausted => Exhausted
      | Raised e => Raised e
      end
  end.

End Queued.

Definition queued {A S : Type} (generator_stop : bool)
  (values : iterator A S) (qsize : Z)
  : outcome (iterator A (queued_frame (A:=A) (S:=S))) :=
  generator_call (QCreated (frame values) qsize)
    (queued_next (resume values) generator_stop).

(** ** Temporal pacing *)

(** [time.sleep], on a count of the seconds slept so far: a negative length
    is refused. *)
Definition sleep (delay : Qc) (slept : Qc) : outcome Qc :=
  if Qclt_le_dec delay (Q2Qc 0) then Thrown ValueError
  else Returned (slept + delay)%Qc.

Section Delayed.
Context {A S : Type}.
Variable next : S → pull A S.
Variable delay : Qc.

(** [for v in values: sleep(delay); yield v] *)
Definition pre_delayed_next (g : S * Qc) : pull A (S * Qc) :=
  match next g.1 with
  | Yield v it' =>
      match sleep delay g.2 with
      | Returned slept' => Yield v (it', slept')
      | Thrown e => Raised e
      end
  | Exhausted => Exhausted
  | Raised e => Raised e
  end.

(** The frame of [post_delayed]: not yet started, or suspended at [yield v]
    with the [sleep(delay)] of that iteration still to run. *)
Inductive post_frame : Type :=
| PostCreated (values : S)
| PostSuspended (it : S).

Definition post_loop (it : S) (slept : Qc) : pull A (post_frame * Qc) :=
  match next it with
  | Yield v it' => Yield v (PostSuspended it', slept)
  | Exhausted => Exhausted
  | Raised e => Raised e
  end.

(** [for v in values: yield v; sleep(delay)] *)
Definition post_delayed_next (g : post_frame * Qc)
  : pull A (post_frame * Qc) :=
  match g.1 with
  | PostCreated values => post_loop values g.2
  | PostSuspended it =>
      match sleep delay g.2 with
      | Returned slept' => post_loop it slept'
      | Thrown e => Raised e
      end
  end.

End Delayed.

(** Each generator counts, next to its frame, the seconds it has kept its
    consumer waiting. *)
Definition pre_delayed {A S : Type} (values : iterator A S) (delay : Qc)
  : outcome (iterator A (S * Qc)) :=
  generator_call (frame values, Q2Qc 0)
    (pre_delayed_next (resume values) delay).

Definition post_delayed {A S : Type} (values : iterator A S) (delay : Qc)
  : outcome (iterator A (post_frame (S:=S) * Qc)) :=
  generator_call (PostCreated (frame values), Q2Qc 0)
    (post_delayed_next (resume values) delay).

(** ** negated, clamped and the wave generators *)

(** [for v in values: yield not v], with the truth value testing that [not]
    applies to [v]. *)
Definition negated_next {A S : Type} (truth : A → bool) (next : S → pull A S)
  (it : S) : pull bool S :=
  match next it with
  | Yield v it' => Yield (negb (truth v)) it'
  | Exhausted => Exhausted
  | Raised e => Raised e
  end.

Definition negated {A S : Type} (truth : A → bool) (values : iterator A S)
  : outcome (iterator bool S) :=
  generator_call (frame values) (negated_next truth (resume values)).

(** The comparison [a < b] of the numeric type ([b > a] is the same test). *)
Class Ordered (T : Type) : Type := less : T → T → bool.

#[export] Instance Qc_Ordered : Ordered Qc :=
  λ a b, if Qclt_le_dec a b then true else false.

#[export] Instance float_Ordered : Ordered float := PrimFloat.ltb.

(** The builtins [max(a, b)] and [min(a, b)] keep their first argument
    unless the second is strictly greater, respectively strictly less. *)
Definition py_max {T : Type} `{Ordered T} (a b : T) : T :=
  if less a b then b else a.

Definition py_min {T : Type} `{Ordered T} (a b : T) : T :=
  if less b a then b else a.

(** [for v in values: yield min(max(v, range_min), range_max)] *)
Definition clamped_next {T : Type} `{Ordered T} {S : Type}
  (next : S → pull T S) (range_min range_max : T) (it : S) : pull T S :=
  match next it with
  | Yield v it' => Yield (py_min (py_max v range_min) range_max) it'
  | Exhausted => Exhausted
  | Raised e => Raised e
  end.

Definition clamped {T : Type} `{Ordered T} {S : Type} (values : iterator T S)
  (range_min range_max : T) : outcome (iterator T S) :=
  generator_call (frame values)
    (clamped_next (resume values) range_min range_max).

(** [for d in cycle(range(360)): yield wave(radians(d))], where [wave] is
    [math.sin] or [math.cos]; these and [math.radians] are library
    functions, taken as they come.  The frame is the state of the cycle. *)
Definition wave_next {T : Type} (wave : T → T) (radians : nat → T)
  (c : list nat * list nat) : pull T (list nat * list nat) :=
  match cycle_next c with
  | Yield d c' => Yield (wave (radians d)) c'
  | Exhausted => Exhausted
  | Raised e => Raised e
  end.

Definition sin_values {T : Type} (sin : T → T) (radians : nat → T)
  : outcome (iterator T (list nat * list nat)) :=
  generator_call (cycle (range 360)) (wave_next sin radians).

Definition cos_values {T : Type} (cos : T → T) (radians : nat → T)
  : outcome (iterator T (list nat * list nat)) :=
  generator_call (cycle (range 360)) (wave_next cos radians).

(** The frame an iterator is left in by [n] pulls that all yielded. *)
Fixpoint frame_after {A S : Type} (next : S → pull A S) (n : nat) (s : S)
  : option S :=
  match n with
  | O => Some s
  | Datatypes.S n' =>
      match next s with
      | Yield _ s' => frame_after next n' s'
      | Exhausted => None
      | Raised _ => None
      end
  end.

(** [v] lies between [range_min] and [range_max], bounds included. *)
Definition in_range (range_min range_max v : Qc) : Prop :=
  (range_min ≤ v)%Qc ∧ (v ≤ range_max)%Qc.

(** ** Values and measures the properties are stated with *)

(** The binary64 value nearest to one tenth. *)
Definition one_tenth : float := 0x1.999999999999ap-4%float.

(** The value the specification gives for one element of [scaled], on exact
    rationals. *)
Definition scaled_value (range_min range_max domain_min domain_max v : Qc)
  : Qc :=
  ((v - domain_min) / (domain_max - domain_min) * (range_max - range_min)
   + range_min)%Qc.

(** The floor of a number, as [math.floor] gives it. *)
Class Floor (T : Type) : Type := floor : T → outcome Z.

#[export] Instance Qc_Floor : Floor Qc := λ q, Returned (Qfloor q).

Definition float_floor (f : float) : outcome Z :=
  match Prim2SF f with
  | S754_nan => Thrown ValueError
  | S754_infinity _ => Thrown OverflowError
  | S754_zero _ => Returned 0
  | S754_finite s m e =>
      match e with
      | Z.neg p =>
          let d := 2 ^ Z.pos p in
          Returned (if s then - ((Z.pos m + d - 1) / d) else Z.pos m / d)
      | _ => let a := Z.pos m * 2 ^ e in Returned (if s then - a else a)
      end
  end.

#[export] Instance float_Floor : Floor float := float_floor.

(** A float that is not below zero: a zero of either sign, or a value whose
    sign bit is clear. *)
Definition float_not_negative (f : float) : bool :=
  match Prim2SF f with
  | S754_finite true _ _ => false
  | S754_infinity true => false
  | _ => true
  end.

(** The formula of [scaled] for one element, in the arithmetic of the
    elements: [((v - domain_min) / (domain_max - domain_min))
    * (range_max - range_min) + range_min]. *)
Definition rescaled {T : Type} `{Number T}
  (range_min range_max domain_min domain_max v : T) : outcome T :=
  r ← truediv (sub v domain_min) (sub domain_max domain_min);
  Returned (add (mul r (sub range_max range_min)) range_min).

(** The value the specification gives for one element of [quantized]: the
    input is rescaled to the unit interval by the formula of [scaled], the
    level is [floor(normalized * steps) / steps], and the level is rescaled
    to the range. *)
Definition quantized_by_floor {T : Type} `{Number T} `{Floatable T}
  `{Floor T} (steps : Z) (range_min range_max v : T) : outcome float :=
  normalized ← rescaled (of_int 0) (of_int 1) range_min range_max v;
  k ← floor (mul normalized (of_int steps));
  level ← int_truediv k steps;
  size ← to_float (sub range_max range_min);
  low ← to_float range_min;
  Returned (level * size + low)%float.

(** A stream mapped through a step that may raise: the output stops at the
    first element on which the step raises, with that exception. *)
Fixpoint map_raising_list {A B : Type} (f : A → outcome B) (vs : list A)
  (e : ending) : list B * ending :=
  match vs with
  | [] => ([], e)
  | v :: vs' =>
      match f v with
      | Returned b => let (bs, e') := map_raising_list f vs' e in (b :: bs, e')
      | Thrown x => ([], Throws x)
      end
  end.

Definition map_raising {A B : Type} (f : A → outcome B) (r : list A * ending)
  : list B * ending := map_raising_list f r.1 r.2.

(** A call that raised, and an observation that met an exception. *)
Definition raises {R : Type} (call : outcome R) : Prop := ∃ e, call = Thrown e.

Definition fails {A : Type} (r : list A * ending) : Prop := ∃ e, r.2 = Throws e.

(** The length of the shortest of the given sequences. *)
Fixpoint min_length {A : Type} (xss : list (list A)) : nat :=
  match xss with
  | [] => 0
  | xs :: rest =>
      match rest with
      | [] => length xs
      | _ :: _ => Nat.min (length xs) (min_length rest)
      end
  end.

(** Closes a goal that compares two computed sequences of rationals. *)
Ltac Qc_sequences :=
  vm_compute;
  repeat match goal with
    | |- (_, _) = (_, _) => apply (f_equal2 pair)
    | |- _ :: _ = _ :: _ => apply (f_equal2 cons)
    | |- @eq Qc _ _ => apply Qc_is_canon; reflexivity
    | |- _ => reflexivity
    end.

(** * Properties *)

(** ** Consuming iterators *)

Lemma unfolds_list {A : Type} (xs : list A) : unfolds list_next xs xs.
Proof.
  induction xs as [|x xs IH].
  - by apply unfolds_nil.
  - by eapply unfolds_cons.
Qed.

Lemma finite_iter {A : Type} (xs : list A) : finite (iter xs) xs.
Proof. apply unfolds_list. Qed.

Lemma unfolds_advance {A S : Type} (next : S → pull A S) s xs :
  unfolds next s xs → unfolds advance (Iterator s next) xs.
Proof.
  induction 1 as [s Hs|s v s' vs Hs _ IH].
  - apply unfolds_nil. unfold advance. simpl. by rewrite Hs.
  - eapply unfolds_cons; [|exact IH]. unfold advance. simpl. by rewrite Hs.
Qed.

Lemma finite_advance {A S : Type} (it : iterator A S) xs :
  finite it xs → unfolds advance it xs.
Proof. destruct it as [s next]. apply unfolds_advance. Qed.

Lemma consume_unfolds {A S : Type} (next : S → pull A S) s xs n :
  unfolds next s xs → (length xs < n)%nat → consume next n s = (xs, Ends).
Proof.
  intros Hu. revert n.
  induction Hu as [s Hs|s v s' vs Hs _ IH]; intros [|n] Hn;
    simpl in *; try lia; rewrite Hs; [done|].
  rewrite IH by lia. done.
Qed.

(** A generator whose every resumption pulls once from upstream and yields
    [f v] for the value [v] pulled, passing on the end and the exceptions of
    the upstream, is [map f] on every prefix of the iteration. *)
Lemma consume_elementwise {A B S : Type} (f : A → B)
    (next : S → pull A S) (gnext : S → pull B S) :
  (∀ s, gnext s = match next s with
                  | Yield v s' => Yield (f v) s'
                  | Exhausted => Exhausted
                  | Raised e => Raised e
                  end) →
  ∀ n s, consume gnext n s = map_values f (consume next n s).
Proof.
  intros Hg n. induction n as [|n IH]; intros s; [done|].
  simpl. rewrite Hg. destruct (next s) as [v s'| |e]; try done.
  rewrite IH. destruct (consume next n s') as [vs e]. done.
Qed.

Lemma map_values_id {A : Type} (f : A → A) (r : list A * ending) :
  (∀ x, f x = x) → map_values f r = r.
Proof.
  intros Hf. destruct r as [vs e]. unfold map_values. simpl.
  f_equal. induction vs as [|v vs IH]; simpl; [done|]. by rewrite Hf, IH.
Qed.

Lemma map_values_compose {A B C : Type} (f : A → B) (g : B → C) r :
  map_values g (map_values f r) = map_values (g ∘ f) r.
Proof. destruct r as [vs e]. unfold map_values. simpl. by rewrite map_map. Qed.

(** ** Runs of the embedding *)

Example float_arithmetic :
  observe 5 (inverted (iter [0.25%float; 1%float; 0%float]))
  = ([0.75%float; 0%float; 1%float], Ends)
  ∧ float_trunc (-2.75)%float = Returned (-2)
  ∧ float_trunc 4%float = Returned 4
  ∧ of_int (T:=float) (-3) = (-3)%float.
Proof. vm_compute. auto. Qed.

Example averaged_run :
  observe 4 (averaged (iter <$> [[Q2Qc 1; Q2Qc 2; Q2Qc 3];
                                 [Q2Qc 3; Q2Qc 2; Q2Qc 1]]))
  = ([Q2Qc 2; Q2Qc 2; Q2Qc 2], Ends).
Proof. Qc_sequences. Qed.

(** ** inverted *)

Lemma inverted_elementwise {T : Type} `{Number T} {S : Type}
    (values : iterator T S) n :
  observe n (inverted values)
  = map_values (sub (of_int 1)) (consumed n values).
Proof. by apply consume_elementwise. Qed.

Lemma Qc_double_inversion (x : Qc) : sub (of_int 1) (sub (of_int 1) x) = x.
Proof. change (1 - (1 - x) = x)%Qc. ring. Qed.

(** C8, as stated, fails on binary floating point: [1 - 0.1] is rounded to
    [0.9], and [1 - 0.9] is [0.09999999999999998], not [0.1]; so the double
    inversion of the one-element sequence [0.1], whose element lies in
    [0, 1], is not that sequence. *)
Lemma inverted_round_trip_float_counterexample :
  (PrimFloat.leb 0 one_tenth && PrimFloat.leb one_tenth 1 = true)
  ∧ observe 2 (inverted (iter [one_tenth]) ≫= inverted)
    = ([0x1.9999999999998p-4%float], Ends)
  ∧ observe 2 (inverted (iter [one_tenth]) ≫= inverted)
    ≠ ([one_tenth], Ends).
Proof.
  split; [by vm_compute|]. split; [by vm_compute|].
  intros Heq.
  assert (Hb : PrimFloat.eqb
            (hd 0%float (observe 2 (inverted (iter [one_tenth]) ≫= inverted)).1)
            one_tenth
          = PrimFloat.eqb (hd 0%float ([one_tenth], Ends).1) one_tenth)
    by (by rewrite Heq).
  vm_compute in Hb. discriminate Hb.
Qed.

(** C8 (amended): on every upstream, finite or not, and for every number of
    pulls, [inverted] yields [1 - x] for each element [x] pulled, and ends or
    raises exactly where the upstream does; and on exact rationals (in or
    out of the unit interval) the double inversion reproduces the upstream
    exactly. *)
Theorem inverted_exact_round_trip :
  (∀ (T : Type) (HT : Number T) (S : Type) (values : iterator T S) n,
      observe n (inverted values)
      = map_values (λ x, sub (of_int 1) x) (consumed n values))
  ∧ (∀ (S : Type) (values : iterator Qc S) n,
      observe n (inverted values)
      = map_values (λ x, 1 - x)%Qc (consumed n values))
  ∧ (∀ (S : Type) (values : iterator Qc S) n,
      observe n (inverted values ≫= inverted) = consumed n values)
  ∧ (∀ xs : list Qc,
      observe (Datatypes.S (length xs)) (inverted (iter xs) ≫= inverted)
      = (xs, Ends)).
Proof.
  split; [intros; apply inverted_elementwise|].
  split; [intros; rewrite inverted_elementwise; reflexivity|].
  assert (Hrt : ∀ (S : Type) (values : iterator Qc S) n,
             observe n (inverted values ≫= inverted) = consumed n values).
  { intros S values n.
    change (inverted values ≫= inverted)
      with (inverted (Iterator (frame values) (inverted_next (resume values)))).
    rewrite inverted_elementwise.
    change (consumed n (Iterator (frame values) (inverted_next (resume values))))
      with (observe n (inverted values)).
    rewrite inverted_elementwise, map_values_compose.
    apply map_values_id. intros x. apply Qc_double_inversion. }
  split; [exact Hrt|].
  intros xs. rewrite Hrt. apply consume_unfolds; [apply unfolds_list|lia].
Qed.

(** ** scaled *)

Lemma Qc_sub_zero (a b : Qc) : (a - b)%Qc = Q2Qc 0 → a = b.
Proof.
  intros Hab. change (Q2Qc 0) with 0%Qc in Hab.
  transitivity ((a - b) + b)%Qc; [ring|]. rewrite Hab. ring.
Qed.

Lemma Qc_truediv (a b : Qc) :
  b ≠ Q2Qc 0 → truediv a b = Returned (a / b)%Qc.
Proof. intros Hb. simpl. by destruct (Qc_eq_dec b (Q2Qc 0)). Qed.

Lemma Qc_truediv_zero (a : Qc) : truediv a (Q2Qc 0) = Thrown ZeroDivisionError.
Proof. simpl. by destruct (Qc_eq_dec (Q2Qc 0) (Q2Qc 0)). Qed.

Lemma scaled_next_Qc {S : Type} (next : S → pull Qc S)
    (range_min range_max domain_min domain_max : Qc) s :
  domain_max ≠ domain_min →
  scaled_next next range_min range_max domain_min domain_max s
  = match next s with
    | Yield v s' =>
        Yield (scaled_value range_min range_max domain_min domain_max v) s'
    | Exhausted => Exhausted
    | Raised e => Raised e
    end.
Proof.
  intros Hd. unfold scaled_next. destruct (next s) as [v s'| |e]; try done.
  rewrite Qc_truediv; [done|]. intros H0. by apply Hd, Qc_sub_zero.
Qed.

(** C7: on exact rationals, with [domain_max] different from [domain_min],
    every element [v] pulled from upstream is yielded as
    [((v - domain_min) / (domain_max - domain_min)) * (range_max - range_min)
    + range_min], in order, one output per input and with the ending of the
    upstream, for every number of pulls; and [scaled(xs, -1, 1)], domain
    [0, 1], maps 0, 0.5 and 1 to -1, 0 and 1, on rationals and on binary64
    floats alike. *)
Theorem scaled_formula :
  (∀ (S : Type) (values : iterator Qc S)
     (range_min range_max domain_min domain_max : Qc) n,
      domain_max ≠ domain_min →
      observe n (scaled values range_min range_max domain_min domain_max)
      = map_values (scaled_value range_min range_max domain_min domain_max)
          (consumed n values))
  ∧ observe 4 (scaled (iter [Q2Qc 0; Q2Qc (1 # 2); Q2Qc 1])
                 (of_int (-1)) (of_int 1) (of_int 0) (of_int 1))
    = ([Q2Qc (-1); Q2Qc 0; Q2Qc 1], Ends)
  ∧ observe 4 (scaled (iter [0%float; 0.5%float; 1%float])
                 (of_int (-1)) (of_int 1) (of_int 0) (of_int 1))
    = ([(-1)%float; 0%float; 1%float], Ends).
Proof.
  split.
  - intros S values range_min range_max domain_min domain_max n Hd.
    apply consume_elementwise. intros s. by apply scaled_next_Qc.
  - split; [Qc_sequences|by vm_compute].
Qed.

Lemma scaled_formula_witness :
  observe 3 (scaled (iter [Q2Qc 3; Q2Qc 4]) (Q2Qc 0) (Q2Qc 10) (Q2Qc 2) (Q2Qc 4))
  = map_values (scaled_value (Q2Qc 0) (Q2Qc 10) (Q2Qc 2) (Q2Qc 4))
      (consumed 3 (iter [Q2Qc 3; Q2Qc 4])).
Proof.
  apply (proj1 scaled_formula (list Qc) (iter [Q2Qc 3; Q2Qc 4])
           (Q2Qc 0) (Q2Qc 10) (Q2Qc 2) (Q2Qc 4) 3%nat).
  intros Heq. apply (f_equal this) in Heq. vm_compute in Heq. discriminate Heq.
Defined.

(** C3, as stated, fails: with [domain_max == domain_min] the call of
    [scaled] returns a generator and raises nothing; the division by zero
    is met at the first pull, on rationals and on floats, and only if the
    upstream has an element to divide: on an empty upstream the output is
    the empty sequence. *)
Lemma scaled_empty_domain_counterexample :
  ¬ raises (scaled (iter [Q2Qc (1 # 2)]) (Q2Qc 0) (Q2Qc 1) (Q2Qc 0) (Q2Qc 0))
  ∧ observe 1 (scaled (iter [Q2Qc (1 # 2)]) (Q2Qc 0) (Q2Qc 1) (Q2Qc 0) (Q2Qc 0))
    = ([], Throws ZeroDivisionError)
  ∧ ¬ raises (scaled (iter [0.5%float]) 0%float 1%float 0%float 0%float)
  ∧ observe 1 (scaled (iter [0.5%float]) 0%float 1%float 0%float 0%float)
    = ([], Throws ZeroDivisionError)
  ∧ observe 1 (scaled (iter []) (Q2Qc 0) (Q2Qc 1) (Q2Qc 0) (Q2Qc 0))
    = ([], Ends).
Proof.
  split; [intros [e He]; discriminate He|]. split; [reflexivity|].
  split; [intros [e He]; discriminate He|]. split; reflexivity.
Qed.

(** C3 (amended): when [domain_max == domain_min], on exact rationals, the
    call of [scaled] returns its generator without raising; the first pull
    raises [ZeroDivisionError] if the upstream yields an element, and ends
    the iteration silently if the upstream is empty (an exception of the
    upstream is passed on); no value is ever yielded. *)
Theorem scaled_empty_domain_fails_at_first_element :
  ∀ (S : Type) (values : iterator Qc S) (range_min range_max domain : Qc) n,
    ¬ raises (scaled values range_min range_max domain domain)
    ∧ observe (Datatypes.S n) (scaled values range_min range_max domain domain)
      = ([], match advance values with
             | Yield _ _ => Throws ZeroDivisionError
             | Exhausted => Ends
             | Raised e => Throws e
             end).
Proof.
  intros S values range_min range_max domain n.
  split; [intros [e He]; discriminate He|].
  unfold advance. simpl. unfold consumed. simpl. unfold scaled_next.
  destruct (resume values (frame values)) as [v s'| |e]; try done.
  replace (sub domain domain) with (Q2Qc 0).
  - by rewrite Qc_truediv_zero.
  - change (0 = domain - domain)%Qc. ring.
Qed.

(** ** quantized *)

Lemma of_int_Qc_nonzero (z : Z) : z ≠ 0 → Q2Qc (inject_Z z) ≠ Q2Qc 0.
Proof.
  intros Hz Heq. apply Q2Qc_eq_iff in Heq.
  unfold Qeq in Heq. simpl in Heq. lia.
Qed.

Lemma Qc_trunc_floor (q : Qc) : (0 ≤ q)%Qc → Qc_trunc q = Qfloor q.
Proof.
  unfold Qcle, Qle, Qc_trunc, Qfloor. simpl. destruct (this q) as [num den].
  simpl. intros Hq. apply Z.quot_div_nonneg; lia.
Qed.

Lemma of_int_Qc_succ (z : Z) :
  Q2Qc (inject_Z (z + 1)) = (Q2Qc (inject_Z z) + 1)%Qc.
Proof.
  apply Qc_is_canon. simpl. rewrite !Qred_correct.
  rewrite inject_Z_plus. reflexivity.
Qed.

(** A generator whose every resumption pulls once from upstream and yields
    [f v] for the value [v] pulled, or raises what [f v] raises. *)
Lemma consume_elementwise_raising {A B S : Type} (f : A → outcome B)
    (next : S → pull A S) (gnext : S → pull B S) :
  (∀ s, gnext s = match next s with
                  | Yield v s' =>
                      match f v with
                      | Returned b => Yield b s'
                      | Thrown e => Raised e
                      end
                  | Exhausted => Exhausted
                  | Raised e => Raised e
                  end) →
  ∀ n s, consume gnext n s = map_raising f (consume next n s).
Proof.
  intros Hg n. induction n as [|n IH]; intros s; [done|].
  cbn [consume]. rewrite Hg. destruct (next s) as [v s'| |e]; try done.
  unfold map_raising. destruct (consume next n s') as [vs e] eqn:Hc.
  cbn [fst snd map_raising_list]. destruct (f v) as [b|x]; [|done].
  rewrite IH, Hc. done.
Qed.

Lemma map_raising_agree {A B : Type} (f g : A → outcome B) (vs : list A) e :
  Forall (λ v, f v = g v) vs →
  map_raising_list f vs e = map_raising_list g vs e.
Proof.
  induction 1 as [|v vs Hv _ IH]; [done|]. simpl. by rewrite Hv, IH.
Qed.

(** The loop of [quantized], element by element: the element is rescaled by
    the loop of [scaled] and then cut to its level. *)
Lemma quantized_next_elementwise {T : Type} `{Number T} `{Floatable T}
    {S : Type} (next : S → pull T S) (steps : Z) (range_min range_max : T) s :
  quantized_next next steps range_min range_max s
  = match next s with
    | Yield v s' =>
        match rescaled (of_int 0) (of_int 1) range_min range_max v
              ≫= quantize steps (sub range_max range_min) range_min with
        | Returned q => Yield q s'
        | Thrown e => Raised e
        end
    | Exhausted => Exhausted
    | Raised e => Raised e
    end.
Proof.
  unfold quantized_next, scaled_next, rescaled.
  destruct (next s) as [v s'| |e]; try done.
  by destruct (truediv (sub v range_min) (sub range_max range_min)).
Qed.

Lemma quantized_raising {T : Type} `{Number T} `{Floatable T} {S : Type}
    (values : iterator T S) (steps : Z) (range_min range_max : T) n :
  observe n (quantized values steps range_min range_max)
  = map_raising
      (λ v, rescaled (of_int 0) (of_int 1) range_min range_max v
            ≫= quantize steps (sub range_max range_min) range_min)
      (consumed n values).
Proof.
  apply consume_elementwise_raising. intros s.
  apply quantized_next_elementwise.
Qed.

(** On a float that is not below zero, [int()] and the floor agree. *)
Lemma float_trunc_floor (x : float) :
  float_not_negative x = true → float_trunc x = float_floor x.
Proof.
  unfold float_not_negative, float_trunc, float_floor.
  destruct (Prim2SF x) as [| | |[|] m e]; try done.
  intros _. by destruct e.
Qed.

Lemma quantize_by_floor_Qc (steps : Z) (a b v : Qc) :
  0 < steps → (a < b)%Qc → in_range a b v →
  rescaled (of_int 0) (of_int 1) a b v ≫= quantize steps (sub b a) a
  = quantized_by_floor steps a b v.
Proof.
  intros Hs Hab [Hav Hvb]. unfold quantized_by_floor, rescaled.
  rewrite Qc_truediv by (intros H0; apply Qc_sub_zero in H0;
                         by apply (Qclt_not_eq a b)).
  cbn [mbind outcome_bind]. unfold quantize.
  cbn [to_int Qc_Number floor Qc_Floor of_int mul add sub].
  rewrite Qc_trunc_floor; [done|].
  apply Qcmult_nonneg_nonneg.
  - change (Q2Qc (inject_Z 0)) with 0%Qc.
    change (Q2Qc (inject_Z 1)) with 1%Qc.
    replace ((v - a) / (b - a) * (1 - 0) + 0)%Qc with ((v - a) / (b - a))%Qc
      by (unfold Qcdiv; ring).
    unfold Qcdiv, Qcminus. apply Qcmult_nonneg_nonneg.
    + apply (proj1 (Qcle_minus_iff a v)). exact Hav.
    + apply Qclt_le_weak, Qcinv_pos.
      apply (proj1 (Qclt_minus_iff a b)). exact Hab.
  - change (0 <= Qred (inject_Z steps))%Q. rewrite Qred_correct.
    unfold Qle. simpl. lia.
Qed.

Lemma quantize_by_floor_float (steps : Z) (a b v : float) :
  (∀ w, rescaled (of_int 0) (of_int 1) a b v = Returned w →
        float_not_negative (mul w (of_int steps)) = true) →
  rescaled (of_int 0) (of_int 1) a b v ≫= quantize steps (sub b a) a
  = quantized_by_floor steps a b v.
Proof.
  intros Hw. unfold quantized_by_floor.
  destruct (rescaled (of_int 0) (of_int 1) a b v) as [w|e]; [|done].
  cbn [mbind outcome_bind]. unfold quantize.
  cbn [to_int float_Number floor float_Floor].
  by rewrite float_trunc_floor by (by apply Hw).
Qed.

(** Below the range [int()] and the floor part ways: with 4 steps on the
    range [0, 1] the input -0.1 is yielded as 0, where the floor-based level
    is -0.25. *)
Example quantized_below_range :
  observe 2 (quantized (iter [(- one_tenth)%float]) 4 0%float 1%float)
  = ([0%float], Ends)
  ∧ quantized_by_floor 4 0%float 1%float (- one_tenth)%float
    = Returned (-0.25)%float.
Proof. by vm_compute. Qed.

(** On fractions the outputs are floats all the same: the level is the
    quotient of two integers. *)
Example quantized_of_fractions :
  observe 4 (quantized (iter [Q2Qc (1 # 10)]) 10 (Q2Qc 0) (Q2Qc 1))
  = ([one_tenth], Ends)
  ∧ observe 4 (quantized (iter [Q2Qc (1 # 49)]) 49 (Q2Qc 0) (Q2Qc 1))
    = ([0x1.4e5e0a72f0539p-6%float], Ends)
  ∧ observe 4 (quantized (iter [Q2Qc (5 # 3)]) 7 (Q2Qc (1 # 3)) (Q2Qc (7 # 3)))
    = ([0x1.79e79e79e79e7p+0%float], Ends).
Proof. by vm_compute. Qed.

(** C6: each output of [quantized] is computed by rescaling the input to the
    unit interval with the formula of [scaled], taking the level
    [floor(normalized * steps) / steps] and rescaling it to the range, the
    operations being those of Python's arithmetic: on fractions inside
    [range_min, range_max] with a positive number of steps, and on floats
    whose normalized value times [steps] is not below zero, the output of
    the code, element by element and with the ending of the upstream, is
    that of the floor-based formula.  With 4 steps on the range [0, 1] the
    input 1.0 is yielded as exactly 1.0, the top step, and 0.0 as 0.0;
    the floats nearest to 0.3, 0.55 and 0.9 are yielded as 0.25, 0.5 and
    0.75. *)
Theorem quantized_floor_based :
  (∀ (S : Type) (values : iterator Qc S) (steps : Z) (range_min range_max : Qc)
     n,
      0 < steps → (range_min < range_max)%Qc →
      Forall (in_range range_min range_max) (consumed n values).1 →
      observe n (quantized values steps range_min range_max)
      = map_raising (quantized_by_floor steps range_min range_max)
          (consumed n values))
  ∧ (∀ (S : Type) (values : iterator float S) (steps : Z)
       (range_min range_max : float) n,
      Forall (λ v, ∀ w,
                rescaled (of_int 0) (of_int 1) range_min range_max v
                = Returned w →
                float_not_negative (mul w (of_int steps)) = true)
        (consumed n values).1 →
      observe n (quantized values steps range_min range_max)
      = map_raising (quantized_by_floor steps range_min range_max)
          (consumed n values))
  ∧ observe 3 (quantized (iter [1%float; 0%float]) 4 0%float 1%float)
    = ([1%float; 0%float], Ends)
  ∧ observe 4 (quantized (iter [0x1.3333333333333p-2%float; 0x1.199999999999ap-1%float; 0x1.ccccccccccccdp-1%float]) 4
                 0%float 1%float)
    = ([0.25%float; 0.5%float; 0.75%float], Ends)
  ∧ observe 3 (quantized (iter [Q2Qc 1; Q2Qc 0]) 4 (Q2Qc 0) (Q2Qc 1))
    = ([1%float; 0%float], Ends).
Proof.
  split; [|split].
  - intros S values steps range_min range_max n Hs Hr Hin.
    rewrite quantized_raising. unfold map_raising.
    apply map_raising_agree. eapply Forall_impl; [exact Hin|].
    intros v Hv. by apply quantize_by_floor_Qc.
  - intros S values steps range_min range_max n Hin.
    rewrite quantized_raising. unfold map_raising.
    apply map_raising_agree. eapply Forall_impl; [exact Hin|].
    intros v Hv. by apply quantize_by_floor_float.
  - repeat split; by vm_compute.
Qed.

Lemma quantized_floor_based_witness :
  observe 3 (quantized (iter [Q2Qc (3 # 10); Q2Qc (9 # 10)]) 4
               (Q2Qc 0) (Q2Qc 1))
  = map_raising (quantized_by_floor 4 (Q2Qc 0) (Q2Qc 1))
      (consumed 3 (iter [Q2Qc (3 # 10); Q2Qc (9 # 10)]))
  ∧ observe 3 (quantized (iter [0x1.3333333333333p-2%float; 0x1.ccccccccccccdp-1%float]) 4 0%float 1%float)
    = map_raising (quantized_by_floor 4 0%float 1%float)
        (consumed 3 (iter [0x1.3333333333333p-2%float; 0x1.ccccccccccccdp-1%float])).
Proof.
  split.
  - apply (proj1 quantized_floor_based (list Qc)
             (iter [Q2Qc (3 # 10); Q2Qc (9 # 10)]) 4 (Q2Qc 0) (Q2Qc 1) 3%nat);
      [lia|reflexivity|].
    repeat constructor; vm_compute; discriminate.
  - apply (proj1 (proj2 quantized_floor_based) (list float)
             (iter [0x1.3333333333333p-2%float; 0x1.ccccccccccccdp-1%float]) 4 0%float 1%float 3%nat).
    repeat constructor; intros w Hw; vm_compute in Hw; injection Hw as <-;
      reflexivity.
Defined.

(** ** conjunction, disjunction, averaged *)

Lemma min_length_nil {A : Type} (xss : list (list A)) :
  Exists (λ xs, xs = []) xss → min_length xss = 0%nat.
Proof.
  induction 1 as [xs rest Hxs|xs rest Hex IH].
  - subst xs. destruct rest; reflexivity.
  - destruct rest as [|ys rest]; [by apply Exists_nil in Hex|].
    change (Nat.min (length xs) (min_length (ys :: rest)) = 0%nat).
    rewrite IH. lia.
Qed.

Lemma min_length_tail {A : Type} (xss : list (list A)) :
  xss ≠ [] → Forall (λ xs, xs ≠ []) xss →
  min_length xss = Datatypes.S (min_length (map tail xss)).
Proof.
  intros Hne Hall. induction Hall as [|xs rest Hxs Hrest IH]; [done|].
  destruct xs as [|x xs]; [done|].
  destruct rest as [|ys rest]; [done|].
  change (Nat.min (Datatypes.S (length xs)) (min_length (ys :: rest))
          = Datatypes.S (Nat.min (length xs)
                           (min_length (map tail (ys :: rest))))).
  rewrite IH by done. lia.
Qed.

Lemma some_nil_or_all_cons {A : Type} (xss : list (list A)) :
  Exists (λ xs, xs = []) xss ∨ Forall (λ xs, xs ≠ []) xss.
Proof.
  induction xss as [|xs xss [IH|IH]].
  - right. constructor.
  - left. by constructor 2.
  - destruct xs as [|x xs]; [left; by constructor 1|].
    right. by constructor.
Qed.

Section ZippingFacts.
Context {A S : Type}.
Variable next : S → pull A S.

Lemma zip_pulls_exhausted its xss :
  Forall2 (unfolds next) its xss → Exists (λ xs, xs = []) xss →
  zip_pulls next its = Exhausted.
Proof.
  induction 1 as [|it xs its xss Hu _ IH]; intros Hex.
  - by apply Exists_nil in Hex.
  - simpl. inversion Hu as [? Hn|? v it' vs Hn Hu']; subst; rewrite Hn; [done|].
    apply Exists_cons in Hex as [?|Hex]; [done|]. by rewrite IH.
Qed.

Lemma zip_pulls_yield its xss :
  Forall2 (unfolds next) its xss → Forall (λ xs, xs ≠ []) xss →
  ∃ vs its', zip_pulls next its = Yield vs its'
             ∧ length vs = length its
             ∧ Forall2 (unfolds next) its' (map tail xss).
Proof.
  induction 1 as [|it xs its xss Hu _ IH]; intros Hall.
  - by exists [], [].
  - apply Forall_cons in Hall as [Hxs Hall].
    destruct (IH Hall) as (vs & its' & Hz & Hlen & Hus).
    inversion Hu as [? Hn|? v it' xs' Hn Hu']; subst; [done|].
    exists (v :: vs), (it' :: its'). simpl. rewrite Hn, Hz.
    split; [done|]. split; [by rewrite Hlen|]. by constructor.
Qed.

(** The output of a zipping loop whose combining step never raises on a
    non-empty tuple has the length of the shortest input. *)
Lemma zipped_length {B : Type} (f : list A → outcome B) :
  (∀ vs, vs ≠ [] → ∃ b, f vs = Returned b) →
  ∀ n its xss,
    its ≠ [] → Forall2 (unfolds next) its xss → (min_length xss < n)%nat →
    ∃ out, consume (zipped_next next f) n its = (out, Ends)
           ∧ length out = min_length xss.
Proof.
  intros Hf n. induction n as [|n IH]; intros its xss Hne Hus Hn; [lia|].
  assert (Hxss : xss ≠ []).
  { intros ->. apply Forall2_length in Hus. by destruct its. }
  destruct (some_nil_or_all_cons xss) as [Hex|Hall].
  - exists []. rewrite (min_length_nil xss Hex). split; [|done].
    simpl. unfold zipped_next, zip_next.
    destruct its as [|it its]; [done|].
    by rewrite (zip_pulls_exhausted _ _ Hus Hex).
  - destruct (zip_pulls_yield _ _ Hus Hall) as (vs & its' & Hz & Hlen & Hus').
    rewrite (min_length_tail xss Hxss Hall) in Hn |- *.
    destruct (Hf vs) as [b Hb].
    { intros ->. by destruct its. }
    destruct (IH its' (map tail xss)) as (out & Hout & Hlo); [|done|lia|].
    { intros ->. apply Forall2_length in Hus'. rewrite length_map in Hus'.
      apply Forall2_length in Hus. destruct xss; [done|]. done. }
    exists (b :: out). split; [|by rewrite <- Hlo].
    simpl. unfold zipped_next at 1, zip_next.
    destruct its as [|it its]; [done|]. rewrite Hz, Hb, Hout. done.
Qed.

End ZippingFacts.

Lemma mean_Qc_returns (vs : list Qc) : vs ≠ [] → ∃ m, mean vs = Returned m.
Proof.
  destruct vs as [|v vs]; [done|]. intros _. unfold mean.
  eexists. apply Qc_truediv, of_int_Qc_nonzero. simpl length. lia.
Qed.

Lemma finite_all_advance {A S : Type} (values : list (iterator A S)) xss :
  Forall2 finite values xss → Forall2 (unfolds advance) values xss.
Proof.
  induction 1 as [|it xs values xss Hf _ IH]; constructor; [|done].
  by apply finite_advance.
Qed.

(** C4, as stated, fails: called with no input sequence at all, each of the
    three combinators returns a generator, and the first pull from it finds
    the [zip] of nothing exhausted; the output is empty and nothing is
    raised, at the call or at the pull. *)
Lemma zipping_no_inputs_counterexample :
  (¬ raises (conjunction (S:=list bool) id [])
   ∧ observe 1 (conjunction (S:=list bool) id []) = ([], Ends)
   ∧ ¬ fails (observe 1 (conjunction (S:=list bool) id [])))
  ∧ (¬ raises (disjunction (S:=list bool) id [])
     ∧ observe 1 (disjunction (S:=list bool) id []) = ([], Ends)
     ∧ ¬ fails (observe 1 (disjunction (S:=list bool) id [])))
  ∧ (¬ raises (averaged (T:=Qc) (S:=list Qc) [])
     ∧ observe 1 (averaged (T:=Qc) (S:=list Qc) []) = ([], Ends)
     ∧ ¬ fails (observe 1 (averaged (T:=Qc) (S:=list Qc) []))).
Proof.
  repeat split; try reflexivity; intros [e He]; discriminate He.
Qed.

(** C4 (amended): invoked with zero input sequences, each of [conjunction],
    [disjunction] and [averaged] raises nothing: the call returns a
    generator, and the first pull from it ends the iteration, so the output
    is the empty sequence. *)
Theorem zipping_no_inputs_is_empty :
  (∀ (A S : Type) (truth : A → bool) n,
      ¬ raises (conjunction (S:=S) truth [])
      ∧ observe (Datatypes.S n) (conjunction (S:=S) truth []) = ([], Ends)
      ∧ ¬ raises (disjunction (S:=S) truth [])
      ∧ observe (Datatypes.S n) (disjunction (S:=S) truth []) = ([], Ends))
  ∧ (∀ (T : Type) (HT : Number T) (S : Type) n,
      ¬ raises (averaged (T:=T) (S:=S) [])
      ∧ observe (Datatypes.S n) (averaged (T:=T) (S:=S) []) = ([], Ends)).
Proof.
  split; intros; repeat split; intros [e He]; discriminate He.
Qed.

(** C5: for a non-empty family of finite input sequences, the outputs of
    [conjunction], [disjunction] and (on exact rationals) [averaged] end
    without error after as many elements as the shortest input has; inputs
    of lengths 3 and 5 give exactly 3 outputs. *)
Theorem zipping_length_is_shortest :
  (∀ (A S : Type) (truth : A → bool)
     (values : list (iterator A S)) (xss : list (list A)) n,
      values ≠ [] → Forall2 finite values xss → (min_length xss < n)%nat →
      (∃ out, observe n (conjunction truth values) = (out, Ends)
              ∧ length out = min_length xss)
      ∧ (∃ out, observe n (disjunction truth values) = (out, Ends)
                ∧ length out = min_length xss))
  ∧ (∀ (S : Type) (values : list (iterator Qc S)) (xss : list (list Qc)) n,
      values ≠ [] → Forall2 finite values xss → (min_length xss < n)%nat →
      ∃ out, observe n (averaged values) = (out, Ends)
             ∧ length out = min_length xss)
  ∧ observe 6 (conjunction id (iter <$> [[true; true; false];
                                         [true; false; false; true; true]]))
    = ([true; false; false], Ends)
  ∧ observe 6 (disjunction id (iter <$> [[true; true; false];
                                         [true; false; false; true; true]]))
    = ([true; true; false], Ends)
  ∧ observe 6 (averaged (iter <$> [[Q2Qc 1; Q2Qc 2; Q2Qc 3];
                                   [Q2Qc 3; Q2Qc 2; Q2Qc 1; Q2Qc 0; Q2Qc 0]]))
    = ([Q2Qc 2; Q2Qc 2; Q2Qc 2], Ends).
Proof.
  split; [|split].
  - intros A S truth values xss n Hne Hus Hn.
    apply finite_all_advance in Hus.
    split; apply (zipped_length advance); eauto.
  - intros S values xss n Hne Hus Hn. apply finite_all_advance in Hus.
    apply (zipped_length advance); [apply mean_Qc_returns|done..].
  - split; [reflexivity|]. split; [reflexivity|]. Qc_sequences.
Qed.

Lemma zipping_length_is_shortest_witness :
  ((∃ out, observe 4 (conjunction id (iter <$> [[true; true; false];
                                    [true; false; false; true; true]]))
           = (out, Ends) ∧ length out = 3%nat)
   ∧ (∃ out, observe 4 (disjunction id (iter <$> [[true; true; false];
                                      [true; false; false; true; true]]))
             = (out, Ends) ∧ length out = 3%nat))
  ∧ (∃ out, observe 4 (averaged (iter <$> [[Q2Qc 1; Q2Qc 2; Q2Qc 3];
                                [Q2Qc 3; Q2Qc 2; Q2Qc 1; Q2Qc 0; Q2Qc 0]]))
            = (out, Ends) ∧ length out = 3%nat).
Proof.
  split.
  - apply (proj1 zipping_length_is_shortest bool (list bool) id
             (iter <$> [[true; true; false]; [true; false; false; true; true]])
             [[true; true; false]; [true; false; false; true; true]] 4%nat);
      [done|repeat constructor; apply finite_iter|simpl; lia].
  - apply (proj1 (proj2 zipping_length_is_shortest) (list Qc)
             (iter <$> [[Q2Qc 1; Q2Qc 2; Q2Qc 3];
                        [Q2Qc 3; Q2Qc 2; Q2Qc 1; Q2Qc 0; Q2Qc 0]])
             [[Q2Qc 1; Q2Qc 2; Q2Qc 3]; [Q2Qc 3; Q2Qc 2; Q2Qc 1; Q2Qc 0; Q2Qc 0]]
             4%nat);
      [done|repeat constructor; apply finite_iter|simpl; lia].
Defined.

(** ** queued *)

Section QueuedFacts.
Context {A S : Type}.
Variable next : S → pull A S.
Variable generator_stop : bool.

Lemma fill_enough s xs :
  unfolds next s xs → ∀ indices q,
    (length indices ≤ length xs)%nat →
    ∃ it, fill next indices q s = Yield (q ++ take (length indices) xs) it
          ∧ unfolds next it (drop (length indices) xs).
Proof.
  induction 1 as [s Hs|s v s' vs Hs Hu IH]; intros [|i indices] q Hlen;
    simpl in *; try lia.
  - exists s. rewrite app_nil_r. split; [done|]. by apply unfolds_nil.
  - exists s. rewrite app_nil_r. split; [done|]. by eapply unfolds_cons.
  - rewrite Hs. destruct (IH indices (q ++ [v])) as (it & Hf & Hit); [lia|].
    exists it. by rewrite Hf, <- app_assoc.
Qed.

Lemma fill_short s xs :
  unfolds next s xs → ∀ indices q,
    (length xs < length indices)%nat → fill next indices q s = Exhausted.
Proof.
  induction 1 as [s Hs|s v s' vs Hs Hu IH]; intros [|i indices] q Hlen;
    simpl in *; try lia; rewrite Hs; [done|].
  apply IH. lia.
Qed.

(** The ring buffer between two pulls: slot [i] was yielded last and is
    refilled first; the slots after it, then those before it, wait in that
    order, and the rest of the upstream follows them. *)
Lemma queued_drain it rest :
  unfolds next it rest → ∀ q i cyc l1 y l2 n,
    q = l1 ++ y :: l2 → i = length l1 →
    cyc = (seq (Datatypes.S i) (length l2), seq 0 (length q)) →
    (length rest < n)%nat →
    consume (queued_next next generator_stop) n (QSuspended q i cyc it)
    = (take (length rest) (l2 ++ l1 ++ rest), Ends).
Proof.
  induction 1 as [it Hs|it x it' rest Hs Hu IH];
    intros q i cyc l1 y l2 [|n] Hq Hi Hcyc Hn; simpl in Hn; try lia.
  { simpl. by rewrite Hs. }
  cbn [consume queued_next]. rewrite Hs.
  assert (Hins : <[i:=x]> q = l1 ++ x :: l2).
  { subst q i. rewrite insert_app_r_alt by lia.
    by replace (length l1 - length l1)%nat with 0%nat by lia. }
  rewrite decide_True by (subst q i; rewrite length_app; simpl; lia).
  rewrite Hins. unfold queued_loop, cycle_next. subst cyc. cbn [fst snd].
  destruct l2 as [|h l2].
  - (* the last slot was yielded: the cycle starts again at slot 0 *)
    subst q. rewrite length_app. cbn [length seq].
    replace (length l1 + 1)%nat with (Datatypes.S (length l1)) by lia.
    cbn [seq]. destruct l1 as [|h l1].
    + cbn [app lookup list_lookup].
      rewrite (IH [x] 0%nat _ [] x [] n) by (done || simpl; lia). done.
    + cbn [app lookup list_lookup].
      rewrite (IH (h :: l1 ++ [x]) 0%nat _ [] h (l1 ++ [x]) n);
        [|done|done| |lia].
      * simpl. by rewrite <- app_assoc.
      * cbn [length]. rewrite !length_app. cbn [length].
        by rewrite Nat.add_1_r.
  - cbn [length seq].
    assert (Hlk : (l1 ++ x :: h :: l2) !! Datatypes.S i = Some h).
    { subst i. rewrite (lookup_app_r l1) by lia.
      replace (Datatypes.S (length l1) - length l1)%nat with 1%nat by lia.
      done. }
    rewrite Hlk.
    rewrite (IH (l1 ++ x :: h :: l2) (Datatypes.S i) _ (l1 ++ [x]) h l2 n);
      [|by rewrite <- app_assoc|rewrite length_app; simpl; lia| |lia].
    + cbn [length app firstn take]. rewrite <- !app_assoc. done.
    + subst q. rewrite !length_app. done.
Qed.

(** The whole output on a finite upstream that can fill the buffer. *)
Lemma queued_finite values xs qsize n :
  unfolds next values xs →
  0 < qsize → (Z.to_nat qsize ≤ length xs)%nat →
  (length xs - Z.to_nat qsize + 1 < n)%nat →
  consume (queued_next next generator_stop) n (QCreated values qsize)
  = (take (length xs - Z.to_nat qsize + 1) xs, Ends).
Proof.
  intros Hu Hq Hlen Hn. destruct n as [|n]; [lia|].
  cbn [consume queued_next]. unfold range.
  destruct (fill_enough values xs Hu (seq 0 (Z.to_nat qsize)) [])
    as (it & Hf & Hit); [by rewrite length_seq|].
  rewrite Hf, length_seq. rewrite length_seq in Hit. cbn [app].
  destruct (Z.to_nat qsize) as [|k] eqn:Hk; [lia|].
  destruct xs as [|x0 xs]; [simpl in Hlen; lia|].
  unfold queued_loop, cycle, cycle_next. cbn [fst snd seq firstn take].
  cbn [lookup list_lookup].
  rewrite (queued_drain it (drop k xs) Hit _ 0%nat _ [] x0 (take k xs) n);
    [|done|done| |].
  - cbn [app length drop] in *. rewrite length_drop.
    replace (Datatypes.S (length xs) - Datatypes.S k + 1)%nat
      with (Datatypes.S (length xs - k)) by lia.
    cbn [firstn take]. by rewrite take_drop.
  - cbn [length]. rewrite length_take. simpl in Hlen.
    replace (k `min` length xs)%nat with k by lia. done.
  - simpl in Hn, Hit |- *. rewrite length_drop. lia.
Qed.

Lemma queued_underflow values xs qsize n :
  unfolds next values xs → (length xs < Z.to_nat qsize)%nat →
  consume (queued_next next generator_stop) (Datatypes.S n)
    (QCreated values qsize)
  = ([], if generator_stop then Throws RuntimeError else Ends).
Proof.
  intros Hu Hlen. cbn [consume queued_next].
  rewrite (fill_short values xs Hu) by (unfold range; by rewrite length_seq).
  unfold escaping_stop. by destruct generator_stop.
Qed.

End QueuedFacts.

(** C1: once the buffer is filled, the output of [queued] ends at the first
    refill that finds the upstream exhausted, whatever the buffer still
    holds: the value yielded just before stands and nothing follows.  On a
    finite upstream that can fill the buffer, the output is therefore the
    upstream without its last [qsize - 1] elements, which are left in the
    buffer; and [queued([1, 2, 3, 4, 5], 2)] is exactly [1, 2, 3, 4]. *)
Theorem queued_stops_at_first_failed_refill :
  (∀ (A S : Type) (next : S → pull A S) (generator_stop : bool)
     (q : list A) (i : nat) (cyc : list nat * list nat) (it : S) n,
      next it = Exhausted →
      consume (queued_next next generator_stop) (Datatypes.S n)
        (QSuspended q i cyc it) = ([], Ends))
  ∧ (∀ (A S : Type) (generator_stop : bool)
       (values : iterator A S) (xs : list A) (qsize : Z) n,
      finite values xs →
      0 < qsize → qsize ≤ Z.of_nat (length xs) →
      (length xs - Z.to_nat qsize + 1 < n)%nat →
      ∃ out dropped,
        observe n (queued generator_stop values qsize) = (out, Ends)
        ∧ xs = out ++ dropped
        ∧ Z.of_nat (length dropped) = qsize - 1)
  ∧ (∀ generator_stop : bool,
      observe 5 (queued generator_stop (iter [1; 2; 3; 4; 5]) 2)
      = ([1; 2; 3; 4], Ends)).
Proof.
  split; [|split].
  - intros A S next generator_stop q i cyc it n Hit. simpl. by rewrite Hit.
  - intros A S generator_stop values xs qsize n Hu Hq Hlen Hn.
    exists (take (length xs - Z.to_nat qsize + 1) xs),
           (drop (length xs - Z.to_nat qsize + 1) xs).
    split; [|split].
    + apply queued_finite; [done|lia|lia|done].
    + by rewrite take_drop.
    + rewrite length_drop. lia.
  - by intros [].
Qed.

Lemma queued_stops_at_first_failed_refill_witness :
  consume (queued_next list_next false) 1
    (QSuspended [5; 4] 1%nat ([], [0%nat; 1%nat]) []) = ([], Ends)
  ∧ ∃ out dropped,
      observe 5 (queued false (iter [1; 2; 3; 4; 5]) 2) = (out, Ends)
      ∧ [1; 2; 3; 4; 5] = out ++ dropped
      ∧ Z.of_nat (length dropped) = 2 - 1.
Proof.
  split.
  - apply (proj1 queued_stops_at_first_failed_refill Z (list Z) list_next
             false [5; 4] 1%nat ([], [0%nat; 1%nat]) [] 0%nat).
    reflexivity.
  - apply (proj1 (proj2 queued_stops_at_first_failed_refill) Z (list Z)
             false (iter [1; 2; 3; 4; 5]) [1; 2; 3; 4; 5] 2 5%nat);
      [apply finite_iter|lia|simpl; lia|simpl; lia].
Defined.

(** C2, as stated, fails: [queued] on the one-element sequence [1] with
    [qsize = 2] is called without error; the missing element is noticed at
    the first pull, where the [StopIteration] of [next(it)] leaves the
    generator body: the output is silently empty before PEP 479, and the
    pull raises [RuntimeError] under it. *)
Lemma queued_underflow_counterexample :
  ¬ raises (queued false (iter [1]) 2)
  ∧ ¬ raises (queued true (iter [1]) 2)
  ∧ observe 1 (queued false (iter [1]) 2) = ([], Ends)
  ∧ observe 1 (queued true (iter [1]) 2) = ([], Throws RuntimeError).
Proof.
  split; [intros [e He]; discriminate He|].
  split; [intros [e He]; discriminate He|].
  split; reflexivity.
Qed.

(** C2 (amended): for every upstream sequence with fewer than [qsize]
    elements, the call of [queued] returns its generator without raising;
    the shortage shows at the first pull, which yields nothing: the
    [StopIteration] of the fill phase leaves the generator body, so the
    output is the empty sequence before PEP 479 and the pull raises
    [RuntimeError] under it. *)
Theorem queued_underflow_shows_at_first_pull :
  ∀ (A S : Type) (generator_stop : bool)
    (values : iterator A S) (xs : list A) (qsize : Z) n,
    finite values xs → Z.of_nat (length xs) < qsize →
    ¬ raises (queued generator_stop values qsize)
    ∧ observe (Datatypes.S n) (queued generator_stop values qsize)
      = ([], if generator_stop then Throws RuntimeError else Ends).
Proof.
  intros A S generator_stop values xs qsize n Hu Hlen.
  split; [intros [e He]; discriminate He|].
  apply (queued_underflow (resume values) generator_stop (frame values) xs);
    [done|lia].
Qed.

Lemma queued_underflow_shows_at_first_pull_witness :
  ¬ raises (queued true (iter [7; 8]) 3)
  ∧ observe 1 (queued true (iter [7; 8]) 3) = ([], Throws RuntimeError).
Proof.
  apply (queued_underflow_shows_at_first_pull Z (list Z) true
           (iter [7; 8]) [7; 8] 3 0%nat); [apply finite_iter|simpl; lia].
Defined.

(** C10: for a finite upstream of length [L] and a positive [qsize] with
    [L >= qsize], [queued] yields exactly the first [L - qsize + 1] elements
    of the upstream, in upstream order, and then ends. *)
Theorem queued_yields_prefix :
  ∀ (A S : Type) (generator_stop : bool)
    (values : iterator A S) (xs : list A) (qsize : Z) n,
    finite values xs →
    0 < qsize → qsize ≤ Z.of_nat (length xs) →
    (length xs - Z.to_nat qsize + 1 < n)%nat →
    observe n (queued generator_stop values qsize)
    = (take (length xs - Z.to_nat qsize + 1) xs, Ends).
Proof.
  intros A S generator_stop values xs qsize n Hu Hq Hlen Hn.
  apply queued_finite; [done|lia|lia|done].
Qed.

Lemma queued_yields_prefix_witness :
  observe 5 (queued true (iter [10; 20; 30; 40; 50; 60]) 3)
  = ([10; 20; 30; 40], Ends).
Proof.
  apply (queued_yields_prefix Z (list Z) true
           (iter [10; 20; 30; 40; 50; 60]) [10; 20; 30; 40; 50; 60] 3 5%nat);
    [apply finite_iter|lia|simpl; lia|simpl; lia].
Defined.

(** ** pre_delayed, post_delayed *)

Lemma sleep_returns (delay slept : Qc) :
  (0 ≤ delay)%Qc → sleep delay slept = Returned (slept + delay)%Qc.
Proof.
  intros Hd. unfold sleep. destruct (Qclt_le_dec delay (Q2Qc 0)) as [Hlt|_].
  - by apply Qcle_not_lt in Hd.
  - done.
Qed.

Section DelayedFacts.
Context {A S : Type}.
Variable next : S → pull A S.
Variable delay : Qc.
Hypothesis delay_nonneg : (0 ≤ delay)%Qc.

Lemma pre_delayed_values n : ∀ values slept,
  consume (pre_delayed_next next delay) n (values, slept)
  = consume next n values.
Proof using delay_nonneg.
  induction n as [|n IH]; intros values slept; [done|].
  cbn [consume]. unfold pre_delayed_next at 1. cbn [fst snd].
  destruct (next values) as [v it'| |e]; try done.
  rewrite sleep_returns by done. by rewrite IH.
Qed.

Lemma post_delayed_values n : ∀ values slept,
  consume (post_delayed_next next delay) n (PostCreated values, slept)
  = consume next n values
  ∧ consume (post_delayed_next next delay) n (PostSuspended values, slept)
    = consume next n values.
Proof using delay_nonneg.
  induction n as [|n IH]; intros values slept; [done|].
  split; cbn [consume]; unfold post_delayed_next at 1; cbn [fst snd];
    rewrite ?sleep_returns by done; unfold post_loop;
    destruct (next values) as [v it'| |e]; try done.
  - by rewrite (proj2 (IH it' slept)).
  - by rewrite (proj2 (IH it' (slept + delay)%Qc)).
Qed.

(** What changes is the time: each value of [pre_delayed] comes after one
    more [delay]; [post_delayed] gives its first value at once and each
    later one after one more [delay]. *)
Lemma pre_delayed_pull values slept v it' :
  next values = Yield v it' →
  pre_delayed_next next delay (values, slept)
  = Yield v (it', (slept + delay)%Qc).
Proof using delay_nonneg.
  intros Hn. unfold pre_delayed_next. cbn [fst snd].
  by rewrite Hn, sleep_returns.
Qed.

Lemma post_delayed_pull values slept v it' :
  next values = Yield v it' →
  post_delayed_next next delay (PostCreated values, slept)
  = Yield v (PostSuspended it', slept)
  ∧ post_delayed_next next delay (PostSuspended values, slept)
    = Yield v (PostSuspended it', (slept + delay)%Qc).
Proof using delay_nonneg.
  intros Hn. unfold post_delayed_next, post_loop. cbn [fst snd].
  by rewrite sleep_returns, Hn.
Qed.

End DelayedFacts.

(** C9: for every upstream, finite or not, and every delay (a non-negative
    number of seconds), [pre_delayed] and [post_delayed] show a consumer,
    after any number of pulls, exactly the values the upstream itself would
    have shown, in the same order, and end (or raise) exactly where the
    upstream does. *)
Theorem delayed_preserve_values :
  ∀ (A S : Type) (values : iterator A S) (delay : Qc) n,
    (0 ≤ delay)%Qc →
    observe n (pre_delayed values delay) = consumed n values
    ∧ observe n (post_delayed values delay) = consumed n values.
Proof.
  intros A S values delay n Hd. split.
  - by apply pre_delayed_values.
  - by apply post_delayed_values.
Qed.

Lemma delayed_preserve_values_witness :
  observe 4 (pre_delayed (iter [true; false; true]) (Q2Qc (1 # 100)))
  = consumed 4 (iter [true; false; true])
  ∧ observe 4 (post_delayed (iter [true; false; true]) (Q2Qc (1 # 100)))
    = consumed 4 (iter [true; false; true]).
Proof.
  apply (delayed_preserve_values bool (list bool) (iter [true; false; true])
           (Q2Qc (1 # 100)) 4%nat).
  vm_compute. discriminate.
Defined.

(** * Further properties of the combinators *)

(** ** negated *)

Lemma negated_elementwise {A S : Type} (truth : A → bool)
    (values : iterator A S) n :
  observe n (negated truth values)
  = map_values (λ v, negb (truth v)) (consumed n values).
Proof. by apply consume_elementwise. Qed.

(** X1: negating twice gives the truth value of every element of the
    upstream, in order and with the ending of the upstream, after any number
    of pulls; on a stream of booleans the double negation is the stream
    itself. *)
Theorem negated_twice :
  (∀ (A S : Type) (truth : A → bool) (values : iterator A S) n,
      observe n (negated truth values ≫= negated id)
      = map_values truth (consumed n values))
  ∧ (∀ (S : Type) (values : iterator bool S) n,
      observe n (negated id values ≫= negated id) = consumed n values).
Proof.
  assert (Htw : ∀ (A S : Type) (truth : A → bool) (values : iterator A S) n,
             observe n (negated truth values ≫= negated id)
             = map_values truth (consumed n values)).
  { intros A S truth values n.
    change (negated truth values ≫= negated id)
      with (negated id (Iterator (frame values)
                          (negated_next truth (resume values)))).
    rewrite negated_elementwise.
    change (consumed n (Iterator (frame values)
                          (negated_next truth (resume values))))
      with (observe n (negated truth values)).
    rewrite negated_elementwise, map_values_compose.
    destruct (consumed n values) as [vs e]. unfold map_values. simpl.
    f_equal. apply map_ext. intros v. apply negb_involutive. }
  split; [exact Htw|].
  intros S values n. rewrite Htw. by apply map_values_id.
Qed.

(** ** clamped *)

Lemma Qc_less_true (a b : Qc) : less a b = true ↔ (a < b)%Qc.
Proof.
  unfold less, Qc_Ordered. destruct (Qclt_le_dec a b) as [Hlt|Hle].
  - done.
  - split; [done|]. intros Hlt. by apply Qcle_not_lt in Hle.
Qed.

Lemma Qc_less_false (a b : Qc) : less a b = false ↔ (b ≤ a)%Qc.
Proof.
  unfold less, Qc_Ordered. destruct (Qclt_le_dec a b) as [Hlt|Hle].
  - split; [done|]. intros Hle. by apply Qcle_not_lt in Hle.
  - done.
Qed.

(** The value [clamped] yields for [v]. *)
Lemma clamped_elementwise {T : Type} `{Ordered T} {S : Type}
    (values : iterator T S) (range_min range_max : T) n :
  observe n (clamped values range_min range_max)
  = map_values (λ v, py_min (py_max v range_min) range_max)
      (consumed n values).
Proof. by apply consume_elementwise. Qed.

Lemma Qc_clamp_cases (a b v : Qc) :
  py_min (py_max v a) b
  = if less b a then b
    else if less v a then a else if less b v then b else v.
Proof.
  unfold py_min, py_max.
  destruct (less v a) eqn:Hva, (less b a) eqn:Hba, (less b v) eqn:Hbv;
    try done.
  apply Qc_less_false in Hva. apply Qc_less_false in Hbv.
  apply Qc_less_true in Hba.
  exfalso. apply (Qcle_not_lt _ _ Hbv). by apply Qclt_le_trans with a.
Qed.

Lemma Qc_clamp_in_range (a b v : Qc) :
  (a ≤ b)%Qc → in_range a b (py_min (py_max v a) b).
Proof.
  intros Hab. rewrite Qc_clamp_cases.
  destruct (less b a) eqn:Hba.
  { apply Qc_less_true in Hba. by apply Qcle_not_lt in Hab. }
  destruct (less v a) eqn:Hva; [split; [apply Qcle_refl|done]|].
  destruct (less b v) eqn:Hbv; [split; [done|apply Qcle_refl]|].
  apply Qc_less_false in Hva, Hbv. by split.
Qed.

Lemma Qc_clamp_fixed (a b v : Qc) :
  in_range a b v → py_min (py_max v a) b = v.
Proof.
  intros [Hav Hvb]. rewrite Qc_clamp_cases.
  assert (Hab : (a ≤ b)%Qc) by (by apply Qcle_trans with v).
  replace (less b a) with false by (symmetry; by apply Qc_less_false).
  replace (less v a) with false by (symmetry; by apply Qc_less_false).
  replace (less b v) with false by (symmetry; by apply Qc_less_false).
  done.
Qed.

(** X2: with [range_min <= range_max], on exact rationals, [clamped] never
    yields a value outside [range_min, range_max], whatever the upstream
    yields, and it yields one value per upstream value with the same
    ending. *)
Theorem clamped_within_range :
  ∀ (S : Type) (values : iterator Qc S) (range_min range_max : Qc) n,
    (range_min ≤ range_max)%Qc →
    Forall (in_range range_min range_max)
      (observe n (clamped values range_min range_max)).1
    ∧ length (observe n (clamped values range_min range_max)).1
      = length (consumed n values).1
    ∧ (observe n (clamped values range_min range_max)).2
      = (consumed n values).2.
Proof.
  intros S values range_min range_max n Hr. rewrite clamped_elementwise.
  destruct (consumed n values) as [vs e]. unfold map_values. simpl.
  split; [|split; [by rewrite length_map|done]].
  apply Forall_map, Forall_forall. intros v _. simpl.
  by apply Qc_clamp_in_range.
Qed.

Lemma clamped_within_range_witness :
  Forall (in_range (Q2Qc (1 # 2)) (Q2Qc 1))
    (observe 4 (clamped (iter [Q2Qc (-3); Q2Qc (3 # 4); Q2Qc 7])
                  (Q2Qc (1 # 2)) (Q2Qc 1))).1
  ∧ length (observe 4 (clamped (iter [Q2Qc (-3); Q2Qc (3 # 4); Q2Qc 7])
                         (Q2Qc (1 # 2)) (Q2Qc 1))).1
    = length (consumed 4 (iter [Q2Qc (-3); Q2Qc (3 # 4); Q2Qc 7])).1
  ∧ (observe 4 (clamped (iter [Q2Qc (-3); Q2Qc (3 # 4); Q2Qc 7])
                  (Q2Qc (1 # 2)) (Q2Qc 1))).2
    = (consumed 4 (iter [Q2Qc (-3); Q2Qc (3 # 4); Q2Qc 7])).2.
Proof.
  apply (clamped_within_range (list Qc)
           (iter [Q2Qc (-3); Q2Qc (3 # 4); Q2Qc 7]) (Q2Qc (1 # 2)) (Q2Qc 1)
           4%nat).
  vm_compute. discriminate.
Defined.

(** X3: on exact rationals, [clamped] leaves an upstream whose values all
    lie in [range_min, range_max] exactly as it is. *)
Theorem clamped_in_range_unchanged :
  ∀ (S : Type) (values : iterator Qc S) (range_min range_max : Qc) n,
    Forall (in_range range_min range_max) (consumed n values).1 →
    observe n (clamped values range_min range_max) = consumed n values.
Proof.
  intros S values range_min range_max n Hin. rewrite clamped_elementwise.
  destruct (consumed n values) as [vs e]. unfold map_values. simpl in *.
  f_equal. induction Hin as [|v vs Hv _ IH]; [done|].
  simpl. by rewrite Qc_clamp_fixed, IH.
Qed.

Lemma clamped_in_range_unchanged_witness :
  observe 3 (clamped (iter [Q2Qc (1 # 4); Q2Qc 1]) (Q2Qc 0) (Q2Qc 1))
  = consumed 3 (iter [Q2Qc (1 # 4); Q2Qc 1]).
Proof.
  apply (clamped_in_range_unchanged (list Qc)
           (iter [Q2Qc (1 # 4); Q2Qc 1]) (Q2Qc 0) (Q2Qc 1) 3%nat).
  repeat constructor; vm_compute; discriminate.
Defined.

Lemma Qc_clamp_twice (a b v : Qc) :
  py_min (py_max (py_min (py_max v a) b) a) b = py_min (py_max v a) b.
Proof.
  destruct (less b a) eqn:Hba.
  - rewrite !Qc_clamp_cases, Hba. done.
  - apply Qc_clamp_fixed, Qc_clamp_in_range. by apply Qc_less_false.
Qed.

(** X4: on exact rationals, clamping twice to the same bounds is clamping
    once, for any two bounds; and when [range_min > range_max] every value
    yielded is [range_max]. *)
Theorem clamped_idempotent :
  (∀ (S : Type) (values : iterator Qc S) (range_min range_max : Qc) n,
      observe n (clamped values range_min range_max
                 ≫= λ c, clamped c range_min range_max)
      = observe n (clamped values range_min range_max))
  ∧ (∀ (S : Type) (values : iterator Qc S) (range_min range_max : Qc) n,
      (range_max < range_min)%Qc →
      observe n (clamped values range_min range_max)
      = map_values (λ _, range_max) (consumed n values)).
Proof.
  split.
  - intros S values range_min range_max n.
    change (clamped values range_min range_max
            ≫= λ c, clamped c range_min range_max)
      with (clamped (Iterator (frame values)
                       (clamped_next (resume values) range_min range_max))
              range_min range_max).
    rewrite clamped_elementwise.
    change (consumed n (Iterator (frame values)
                          (clamped_next (resume values) range_min range_max)))
      with (observe n (clamped values range_min range_max)).
    rewrite clamped_elementwise, map_values_compose.
    destruct (consumed n values) as [vs e]. unfold map_values. simpl.
    f_equal. apply map_ext. intros v. apply Qc_clamp_twice.
  - intros S values range_min range_max n Hr. rewrite clamped_elementwise.
    destruct (consumed n values) as [vs e]. unfold map_values. simpl.
    f_equal. apply map_ext. intros v. rewrite Qc_clamp_cases.
    by replace (less range_max range_min) with true
      by (symmetry; by apply Qc_less_true).
Qed.

Lemma clamped_idempotent_witness :
  observe 3 (clamped (iter [Q2Qc 0; Q2Qc 5]) (Q2Qc 2) (Q2Qc 1))
  = map_values (λ _, Q2Qc 1) (consumed 3 (iter [Q2Qc 0; Q2Qc 5])).
Proof.
  apply (proj2 clamped_idempotent (list Qc) (iter [Q2Qc 0; Q2Qc 5])
           (Q2Qc 2) (Q2Qc 1) 3%nat).
  reflexivity.
Defined.

(** ** scaled and inverted, composed *)

Lemma scaled_elementwise {S : Type} (values : iterator Qc S)
    (range_min range_max domain_min domain_max : Qc) n :
  domain_max ≠ domain_min →
  observe n (scaled values range_min range_max domain_min domain_max)
  = map_values (scaled_value range_min range_max domain_min domain_max)
      (consumed n values).
Proof.
  intros Hd. apply consume_elementwise. intros s. by apply scaled_next_Qc.
Qed.

Lemma Qc_sub_nonzero (a b : Qc) : a ≠ b → (a - b)%Qc ≠ 0%Qc.
Proof. intros Hab H0. by apply Hab, Qc_sub_zero. Qed.

Lemma scaled_value_inverse (a b c d v : Qc) :
  b ≠ a → d ≠ c → scaled_value c d a b (scaled_value a b c d v) = v.
Proof.
  intros Hba Hdc. unfold scaled_value.
  pose proof (Qc_sub_nonzero b a Hba). pose proof (Qc_sub_nonzero d c Hdc).
  field. by split.
Qed.

(** X5: on exact rationals, scaling from a domain to a range and then back
    from that range to that domain reproduces the upstream exactly, when
    neither interval is a single point. *)
Theorem scaled_round_trip :
  ∀ (S : Type) (values : iterator Qc S)
    (range_min range_max domain_min domain_max : Qc) n,
    range_max ≠ range_min → domain_max ≠ domain_min →
    observe n (scaled values range_min range_max domain_min domain_max
               ≫= λ s, scaled s domain_min domain_max range_min range_max)
    = consumed n values.
Proof.
  intros S values a b c d n Hr Hd.
  change (scaled values a b c d ≫= λ s, scaled s c d a b)
    with (scaled (Iterator (frame values) (scaled_next (resume values) a b c d))
            c d a b).
  rewrite scaled_elementwise by done.
  change (consumed n (Iterator (frame values)
                        (scaled_next (resume values) a b c d)))
    with (observe n (scaled values a b c d)).
  rewrite scaled_elementwise, map_values_compose by done.
  apply map_values_id. intros v. by apply scaled_value_inverse.
Qed.

Lemma scaled_round_trip_witness :
  observe 4 (scaled (iter [Q2Qc 0; Q2Qc (1 # 3); Q2Qc 1])
               (Q2Qc (-1)) (Q2Qc 1) (Q2Qc 0) (Q2Qc 1)
             ≫= λ s, scaled s (Q2Qc 0) (Q2Qc 1) (Q2Qc (-1)) (Q2Qc 1))
  = consumed 4 (iter [Q2Qc 0; Q2Qc (1 # 3); Q2Qc 1]).
Proof.
  apply (scaled_round_trip (list Qc) (iter [Q2Qc 0; Q2Qc (1 # 3); Q2Qc 1])
           (Q2Qc (-1)) (Q2Qc 1) (Q2Qc 0) (Q2Qc 1) 4%nat);
    intros Heq; apply (f_equal this) in Heq; vm_compute in Heq;
    discriminate Heq.
Defined.

(** X6: on exact rationals, [inverted(values)] is [scaled(values, 1, 0)]
    with the default domain [0, 1]: same values, same ending, after any
    number of pulls. *)
Theorem inverted_is_scaled :
  ∀ (S : Type) (values : iterator Qc S) n,
    observe n (inverted values)
    = observe n (scaled values (of_int 1) (of_int 0) (of_int 0) (of_int 1)).
Proof.
  intros S values n. rewrite inverted_elementwise, scaled_elementwise.
  - destruct (consumed n values) as [vs e]. unfold map_values. simpl.
    f_equal. apply map_ext. intros v. unfold scaled_value.
    change (1 - v = (v - 0) / (1 - 0) * (0 - 1) + 1)%Qc. field.
    change (1 - 0 ≠ 0)%Qc. intros H0. apply (f_equal this) in H0.
    vm_compute in H0. discriminate H0.
  - intros H0. apply (f_equal this) in H0. vm_compute in H0. discriminate H0.
Qed.

Lemma scaled_value_in_range (a b c d v : Qc) :
  (a ≤ b)%Qc → (c < d)%Qc → in_range c d v →
  in_range a b (scaled_value a b c d v).
Proof.
  intros Hab Hcd [Hcv Hvd]. unfold scaled_value.
  assert (Hd : (0 < d - c)%Qc).
  { unfold Qcminus. by apply (proj1 (Qclt_minus_iff c d)). }
  assert (Hr : (0 ≤ b - a)%Qc).
  { unfold Qcminus. by apply (proj1 (Qcle_minus_iff a b)). }
  assert (Ht0 : (0 ≤ (v - c) / (d - c))%Qc).
  { unfold Qcdiv. apply Qcmult_nonneg_nonneg.
    - unfold Qcminus. by apply (proj1 (Qcle_minus_iff c v)).
    - by apply Qclt_le_weak, Qcinv_pos. }
  assert (Ht1 : ((v - c) / (d - c) ≤ 1)%Qc).
  { rewrite <- (Qcmult_inv_r (d - c)) by (by apply not_eq_sym, Qclt_not_eq).
    unfold Qcdiv. apply Qcmult_le_mono_nonneg_r.
    - by apply Qclt_le_weak, Qcinv_pos.
    - unfold Qcminus. by apply Qcplus_le_mono_r. }
  split.
  - rewrite <- (Qcplus_0_l a) at 1. apply Qcplus_le_mono_r.
    by apply Qcmult_nonneg_nonneg.
  - replace b with (1 * (b - a) + a)%Qc at 2 by ring.
    apply Qcplus_le_mono_r. by apply Qcmult_le_mono_nonneg_r.
Qed.

(** X7: on exact rationals, with [domain_min < domain_max] and
    [range_min <= range_max], every upstream value inside the domain is
    scaled to a value inside the range. *)
Theorem scaled_within_range :
  ∀ (S : Type) (values : iterator Qc S)
    (range_min range_max domain_min domain_max : Qc) n,
    (range_min ≤ range_max)%Qc → (domain_min < domain_max)%Qc →
    Forall (in_range domain_min domain_max) (consumed n values).1 →
    Forall (in_range range_min range_max)
      (observe n (scaled values range_min range_max domain_min domain_max)).1.
Proof.
  intros S values a b c d n Hab Hcd Hin.
  rewrite scaled_elementwise by (by apply not_eq_sym, Qclt_not_eq).
  destruct (consumed n values) as [vs e]. unfold map_values. simpl in *.
  apply Forall_map. eapply Forall_impl; [exact Hin|].
  intros v Hv. simpl. by apply scaled_value_in_range.
Qed.

Lemma scaled_within_range_witness :
  Forall (in_range (Q2Qc (-1)) (Q2Qc 1))
    (observe 3 (scaled (iter [Q2Qc (1 # 4); Q2Qc 1])
                  (Q2Qc (-1)) (Q2Qc 1) (Q2Qc 0) (Q2Qc 1))).1.
Proof.
  apply (scaled_within_range (list Qc) (iter [Q2Qc (1 # 4); Q2Qc 1])
           (Q2Qc (-1)) (Q2Qc 1) (Q2Qc 0) (Q2Qc 1) 3%nat).
  - vm_compute. discriminate.
  - reflexivity.
  - repeat constructor; vm_compute; discriminate.
Defined.

(** ** quantized: degenerate arguments *)

(** X10: with [steps = 0], or with a range that is a single point, on exact
    rationals, [quantized] is called without error and never yields: the
    first pull raises [ZeroDivisionError] if the upstream yields an element,
    and ends the iteration if the upstream is empty. *)
Theorem quantized_degenerate_fails_at_first_element :
  ∀ (S : Type) (values : iterator Qc S) (steps : Z) (range_min range_max : Qc)
    n,
    steps = 0 ∨ range_max = range_min →
    ¬ raises (quantized values steps range_min range_max)
    ∧ observe (Datatypes.S n) (quantized values steps range_min range_max)
      = ([], match advance values with
             | Yield _ _ => Throws ZeroDivisionError
             | Exhausted => Ends
             | Raised e => Throws e
             end).
Proof.
  intros S values steps a b n Hdeg.
  split; [intros [e He]; discriminate He|].
  unfold advance. simpl. unfold consumed. simpl.
  rewrite quantized_next_elementwise. unfold rescaled.
  destruct (resume values (frame values)) as [v s'| |e]; try done.
  destruct (Qc_eq_dec b a) as [->|Hba].
  - replace (sub a a) with (Q2Qc 0) by (change (0 = a - a)%Qc; ring).
    by rewrite Qc_truediv_zero.
  - destruct Hdeg as [->|?]; [|done].
    rewrite Qc_truediv by (intros H0; by apply Hba, Qc_sub_zero).
    done.
Qed.

Lemma quantized_degenerate_fails_at_first_element_witness :
  ¬ raises (quantized (iter [Q2Qc (1 # 2)]) 0 (Q2Qc 0) (Q2Qc 1))
  ∧ observe 1 (quantized (iter [Q2Qc (1 # 2)]) 0 (Q2Qc 0) (Q2Qc 1))
    = ([], Throws ZeroDivisionError).
Proof.
  apply (quantized_degenerate_fails_at_first_element (list Qc)
           (iter [Q2Qc (1 # 2)]) 0 (Q2Qc 0) (Q2Qc 1) 0%nat).
  left. reflexivity.
Defined.

(** ** conjunction, disjunction, averaged: the values *)

Lemma column_unique {A : Type} (xss : list (list A)) k c1 c2 :
  Forall2 (λ xs v, xs !! k = Some v) xss c1 →
  Forall2 (λ xs v, xs !! k = Some v) xss c2 → c1 = c2.
Proof.
  intros H1. revert c2.
  induction H1 as [|xs v xss c1 Hv _ IH]; intros c2 H2;
    inversion H2 as [|? w ? c2' Hw H2']; subst; [done|].
  rewrite Hv in Hw. injection Hw as ->. f_equal. by apply IH.
Qed.

Lemma column_tail {A : Type} (xss : list (list A)) k col :
  Forall2 (λ xs v, xs !! Datatypes.S k = Some v) xss col →
  Forall2 (λ xs v, xs !! k = Some v) (map tail xss) col.
Proof.
  induction 1 as [|xs v xss col Hv _ IH]; simpl; constructor; [|done].
  by destruct xs.
Qed.

Lemma column_of_nil {A : Type} (xss : list (list A)) k col :
  Exists (λ xs, xs = []) xss →
  ¬ Forall2 (λ xs v, xs !! k = Some v) xss col.
Proof.
  intros Hex Hcol. induction Hcol as [|xs v xss col Hv _ IH].
  - by apply Exists_nil in Hex.
  - apply Exists_cons in Hex as [->|Hex]; [done|by apply IH].
Qed.

Section ZippingValues.
Context {A S : Type}.
Variable next : S → pull A S.

Lemma zip_pulls_heads its xss :
  Forall2 (unfolds next) its xss → Forall (λ xs, xs ≠ []) xss →
  ∃ vs its', zip_pulls next its = Yield vs its'
             ∧ Forall2 (λ xs v, xs !! 0%nat = Some v) xss vs
             ∧ Forall2 (unfolds next) its' (map tail xss).
Proof.
  induction 1 as [|it xs its xss Hu _ IH]; intros Hall.
  - exists [], []. repeat split; constructor.
  - apply Forall_cons in Hall as [Hxs Hall].
    destruct (IH Hall) as (vs & its' & Hz & Hcol & Hus).
    inversion Hu as [? Hn|? v it' xs' Hn Hu']; subst; [done|].
    exists (v :: vs), (it' :: its'). simpl. rewrite Hn, Hz.
    split; [done|]. split; by constructor.
Qed.

(** The [k]-th output of a zipping loop combines the [k]-th elements of the
    inputs. *)
Lemma zipped_values {B : Type} (f : list A → outcome B) :
  (∀ vs, vs ≠ [] → ∃ b, f vs = Returned b) →
  ∀ n its xss,
    its ≠ [] → Forall2 (unfolds next) its xss → (min_length xss < n)%nat →
    ∃ out, consume (zipped_next next f) n its = (out, Ends)
           ∧ ∀ k col, Forall2 (λ xs v, xs !! k = Some v) xss col →
                      ∃ b, f col = Returned b ∧ out !! k = Some b.
Proof.
  intros Hf n. induction n as [|n IH]; intros its xss Hne Hus Hn; [lia|].
  assert (Hxss : xss ≠ []).
  { intros ->. apply Forall2_length in Hus. by destruct its. }
  destruct (some_nil_or_all_cons xss) as [Hex|Hall].
  - exists []. split.
    + simpl. unfold zipped_next, zip_next.
      destruct its as [|it its]; [done|].
      by rewrite (zip_pulls_exhausted _ _ _ Hus Hex).
    + intros k col Hcol. by apply column_of_nil in Hcol.
  - destruct (zip_pulls_heads _ _ Hus Hall) as (vs & its' & Hz & Hcol0 & Hus').
    rewrite (min_length_tail xss Hxss Hall) in Hn.
    assert (Hvs : vs ≠ []).
    { intros ->. apply Forall2_length in Hcol0. by destruct xss. }
    destruct (Hf vs Hvs) as [b Hb].
    destruct (IH its' (map tail xss)) as (out & Hout & Hk); [|done|lia|].
    { intros ->. apply Forall2_length in Hus'. rewrite length_map in Hus'.
      by destruct xss. }
    exists (b :: out). split.
    + simpl. unfold zipped_next at 1, zip_next.
      destruct its as [|it its]; [done|]. by rewrite Hz, Hb, Hout.
    + intros [|k] col Hcol.
      * rewrite (column_unique _ _ _ _ Hcol Hcol0). by exists b.
      * apply column_tail in Hcol. destruct (Hk k col Hcol) as (b' & ? & ?).
        by exists b'.
Qed.

End ZippingValues.

(** X11: for a non-empty family of finite input sequences, the [k]-th value
    of [conjunction] is [all] of the [k]-th elements of the inputs, and the
    [k]-th value of [disjunction] is [any] of them, for every position [k]
    that all the inputs have. *)
Theorem zipping_combines_columns :
  ∀ (A S : Type) (truth : A → bool)
    (values : list (iterator A S)) (xss : list (list A)) n k col,
    values ≠ [] → Forall2 finite values xss → (min_length xss < n)%nat →
    Forall2 (λ xs v, xs !! k = Some v) xss col →
    (observe n (conjunction truth values)).1 !! k = Some (forallb truth col)
    ∧ (observe n (disjunction truth values)).1 !! k
      = Some (existsb truth col).
Proof.
  intros A S truth values xss n k col Hne Hus Hn Hcol.
  apply finite_all_advance in Hus. split.
  - destruct (zipped_values (advance (A:=A) (S:=S))
                (λ vs, Returned (forallb truth vs))
                (λ vs _, ex_intro _ _ eq_refl) n values xss Hne Hus Hn)
      as (out & Hout & Hk).
    destruct (Hk k col Hcol) as (b & Hb & Hlk). injection Hb as <-.
    unfold observe, conjunction, generator_call, consumed. simpl.
    unfold conjunction_next. by rewrite Hout.
  - destruct (zipped_values (advance (A:=A) (S:=S))
                (λ vs, Returned (existsb truth vs))
                (λ vs _, ex_intro _ _ eq_refl) n values xss Hne Hus Hn)
      as (out & Hout & Hk).
    destruct (Hk k col Hcol) as (b & Hb & Hlk). injection Hb as <-.
    unfold observe, disjunction, generator_call, consumed. simpl.
    unfold disjunction_next. by rewrite Hout.
Qed.

Lemma zipping_combines_columns_witness :
  (observe 4 (conjunction id (iter <$> [[true; true; false];
                                        [true; false; false; true]]))).1
    !! 1%nat = Some (forallb id [true; false])
  ∧ (observe 4 (disjunction id (iter <$> [[true; true; false];
                                          [true; false; false; true]]))).1
      !! 1%nat = Some (existsb id [true; false]).
Proof.
  apply (zipping_combines_columns bool (list bool) id
           (iter <$> [[true; true; false]; [true; false; false; true]])
           [[true; true; false]; [true; false; false; true]] 4%nat 1%nat
           [true; false]);
    [done|repeat constructor; apply finite_iter|simpl; lia
    |repeat constructor].
Defined.

(** X12: for a non-empty family of finite input sequences of exact
    rationals, the [k]-th value of [averaged] is the sum of the [k]-th
    elements of the inputs divided by their number. *)
Theorem averaged_is_column_mean :
  ∀ (S : Type) (values : list (iterator Qc S)) (xss : list (list Qc)) n k col,
    values ≠ [] → Forall2 finite values xss → (min_length xss < n)%nat →
    Forall2 (λ xs v, xs !! k = Some v) xss col →
    (observe n (averaged values)).1 !! k
    = Some (fold_left Qcplus col (Q2Qc 0)
            / Q2Qc (inject_Z (Z.of_nat (length col))))%Qc.
Proof.
  intros S values xss n k col Hne Hus Hn Hcol.
  apply finite_all_advance in Hus.
  destruct (zipped_values (advance (A:=Qc) (S:=S)) mean mean_Qc_returns
              n values xss Hne Hus Hn) as (out & Hout & Hk).
  destruct (Hk k col Hcol) as (b & Hb & Hlk).
  assert (Hcne : col ≠ []).
  { intros ->. apply Forall2_length in Hcol. apply Forall2_length in Hus.
    destruct xss; [by destruct values|done]. }
  destruct col as [|c col]; [done|]. unfold mean in Hb.
  rewrite Qc_truediv in Hb
    by (apply of_int_Qc_nonzero; simpl length; lia).
  injection Hb as <-.
  unfold observe, averaged, generator_call, consumed. simpl frame.
  simpl resume. unfold averaged_next. by rewrite Hout.
Qed.

Lemma averaged_is_column_mean_witness :
  (observe 4 (averaged (iter <$> [[Q2Qc 1; Q2Qc 2; Q2Qc 3];
                                  [Q2Qc 3; Q2Qc 4]]))).1 !! 1%nat
  = Some (fold_left Qcplus [Q2Qc 2; Q2Qc 4] (Q2Qc 0)
          / Q2Qc (inject_Z (Z.of_nat (length [Q2Qc 2; Q2Qc 4]))))%Qc.
Proof.
  apply (averaged_is_column_mean (list Qc)
           (iter <$> [[Q2Qc 1; Q2Qc 2; Q2Qc 3]; [Q2Qc 3; Q2Qc 4]])
           [[Q2Qc 1; Q2Qc 2; Q2Qc 3]; [Q2Qc 3; Q2Qc 4]] 4%nat 1%nat
           [Q2Qc 2; Q2Qc 4]);
    [done|repeat constructor; apply finite_iter|simpl; lia
    |repeat constructor].
Defined.

(** ** negated under conjunction and disjunction *)

Lemma all_of_negations {A : Type} (truth : A → bool) (vs : list A) :
  forallb id (map (λ v, negb (truth v)) vs) = negb (existsb truth vs).
Proof.
  induction vs as [|v vs IH]; [done|]. simpl. rewrite IH.
  by destruct (truth v).
Qed.

Lemma any_of_negations {A : Type} (truth : A → bool) (vs : list A) :
  existsb id (map (λ v, negb (truth v)) vs) = negb (forallb truth vs).
Proof.
  induction vs as [|v vs IH]; [done|]. simpl. rewrite IH.
  by destruct (truth v).
Qed.

Section NegatedInputs.
Context {A S : Type}.
Variable truth : A → bool.

(** The inputs, each wrapped in [negated]. *)
Lemma negated_inputs (values : list (iterator A S)) nvalues :
  Forall2 (λ it nit, negated truth it = Returned nit) values nvalues →
  nvalues
  = map (λ it, Iterator (frame it) (negated_next truth (resume it))) values.
Proof.
  induction 1 as [|it nit values nvalues Hn _ IH]; [done|].
  injection Hn as <-. simpl. by rewrite IH.
Qed.

Lemma zip_pulls_negated (its : list (iterator A S)) :
  zip_pulls advance
    (map (λ it, Iterator (frame it) (negated_next truth (resume it))) its)
  = match zip_pulls advance its with
    | Yield vs its' =>
        Yield (map (λ v, negb (truth v)) vs)
          (map (λ it, Iterator (frame it) (negated_next truth (resume it)))
             its')
    | Exhausted => Exhausted
    | Raised e => Raised e
    end.
Proof.
  induction its as [|it its IH]; [done|].
  cbn [map zip_pulls]. rewrite IH. unfold advance at 1 3.
  cbn [frame resume]. unfold negated_next at 1.
  destruct (resume it (frame it)) as [v s'| |e]; try done.
  by destruct (zip_pulls advance its) as [vs its'| |e].
Qed.

Lemma zipped_negated {B : Type} (f : list bool → B) (h : list A → B) n :
  (∀ vs, f (map (λ v, negb (truth v)) vs) = h vs) →
  ∀ its : list (iterator A S),
    consume (zipped_next (advance (A:=bool) (S:=S)) (λ vs, Returned (f vs))) n
      (map (λ it, Iterator (frame it) (negated_next truth (resume it))) its)
    = consume (zipped_next (advance (A:=A) (S:=S)) (λ vs, Returned (h vs)))
        n its.
Proof.
  intros Hfh. induction n as [|n IH]; intros its; [done|].
  cbn [consume]. unfold zipped_next at 1 3, zip_next.
  destruct its as [|it its]; [done|].
  change (map ?m (it :: its)) with (m it :: map m its).
  cbv iota. rewrite <- (map_cons _ it its), zip_pulls_negated.
  destruct (zip_pulls advance (it :: its)) as [vs its'| |e]; try done.
  by rewrite Hfh, IH.
Qed.

End NegatedInputs.

(** X13: De Morgan's laws hold for the streams, whatever the inputs (finite
    or not, any number of them) and after any number of pulls: the
    conjunction of the negated inputs is the negation of their disjunction,
    and the disjunction of the negated inputs is the negation of their
    conjunction. *)
Theorem negated_de_morgan :
  ∀ (A S : Type) (truth : A → bool)
    (values : list (iterator A S)) (nvalues : list (iterator bool S)) n,
    Forall2 (λ it nit, negated truth it = Returned nit) values nvalues →
    observe n (conjunction id nvalues)
    = observe n (disjunction truth values ≫= negated id)
    ∧ observe n (disjunction id nvalues)
      = observe n (conjunction truth values ≫= negated id).
Proof.
  intros A S truth values nvalues n Hneg.
  rewrite (negated_inputs truth values nvalues Hneg). split.
  - change (disjunction truth values ≫= negated id)
      with (negated id (Iterator values (disjunction_next advance truth))).
    rewrite negated_elementwise.
    unfold observe, conjunction, generator_call, consumed.
    cbn [frame resume]. unfold conjunction_next, disjunction_next.
    rewrite (zipped_negated truth (forallb id)
               (λ vs, negb (existsb truth vs)))
      by (intros vs; apply all_of_negations).
    apply (consume_elementwise (λ b : bool, negb (id b))).
    intros its. unfold zipped_next.
    by destruct (zip_next advance its) as [vs its'| |e].
  - change (conjunction truth values ≫= negated id)
      with (negated id (Iterator values (conjunction_next advance truth))).
    rewrite negated_elementwise.
    unfold observe, disjunction, generator_call, consumed.
    cbn [frame resume]. unfold conjunction_next, disjunction_next.
    rewrite (zipped_negated truth (existsb id)
               (λ vs, negb (forallb truth vs)))
      by (intros vs; apply any_of_negations).
    apply (consume_elementwise (λ b : bool, negb (id b))).
    intros its. unfold zipped_next.
    by destruct (zip_next advance its) as [vs its'| |e].
Qed.

Lemma negated_de_morgan_witness :
  observe 3 (conjunction id
               [Iterator [true; false] (negated_next id list_next);
                Iterator [false; false] (negated_next id list_next)])
  = observe 3 (disjunction id [iter [true; false]; iter [false; false]]
               ≫= negated id)
  ∧ observe 3 (disjunction id
                 [Iterator [true; false] (negated_next id list_next);
                  Iterator [false; false] (negated_next id list_next)])
    = observe 3 (conjunction id [iter [true; false]; iter [false; false]]
                 ≫= negated id).
Proof.
  apply (negated_de_morgan bool (list bool) id
           [iter [true; false]; iter [false; false]]
           [Iterator [true; false] (negated_next id list_next);
            Iterator [false; false] (negated_next id list_next)] 3%nat).
  repeat constructor.
Defined.

(** ** queued on any upstream *)

Lemma consume_pending_step {A S : Type} (next : S → pull A S) n s xs :
  consume next (Datatypes.S n) s = (xs, Pending) →
  ∃ v s' xs', next s = Yield v s' ∧ xs = v :: xs'
              ∧ consume next n s' = (xs', Pending).
Proof.
  simpl. destruct (next s) as [v s'| |e]; [|done..].
  destruct (consume next n s') as [vs e] eqn:Hc. intros [= <- ->].
  by exists v, s', vs.
Qed.

Lemma consume_pending_length {A S : Type} (next : S → pull A S) n :
  ∀ s xs, consume next n s = (xs, Pending) → length xs = n.
Proof.
  induction n as [|n IH]; intros s xs Hc.
  - by injection Hc as <-.
  - apply consume_pending_step in Hc as (v & s' & xs' & _ & -> & Hc).
    simpl. by rewrite (IH s' xs').
Qed.

Section QueuedLag.
Context {A S : Type}.
Variable next : S → pull A S.
Variable generator_stop : bool.

Lemma fill_pending indices : ∀ q s xs n,
  consume next (length indices + n) s = (xs, Pending) →
  ∃ it, fill next indices q s = Yield (q ++ take (length indices) xs) it
        ∧ consume next n it = (drop (length indices) xs, Pending).
Proof.
  induction indices as [|i indices IH]; intros q s xs n Hc.
  - exists s. simpl. by rewrite app_nil_r.
  - apply consume_pending_step in Hc as (v & s' & xs' & Hs & -> & Hc).
    destruct (IH (q ++ [v]) s' xs' n Hc) as (it & Hf & Hit).
    exists it. simpl. by rewrite Hs, Hf, <- app_assoc.
Qed.

Lemma queued_drain_pending n : ∀ it rest q i cyc l1 y l2,
  consume next n it = (rest, Pending) →
  q = l1 ++ y :: l2 → i = length l1 →
  cyc = (seq (Datatypes.S i) (length l2), seq 0 (length q)) →
  consume (queued_next next generator_stop) n (QSuspended q i cyc it)
  = (take n (l2 ++ l1 ++ rest), Pending).
Proof.
  induction n as [|n IH]; intros it rest q i cyc l1 y l2 Hc Hq Hi Hcyc;
    [done|].
  apply consume_pending_step in Hc as (x & it' & rest' & Hs & -> & Hc).
  cbn [consume queued_next]. rewrite Hs.
  assert (Hins : <[i:=x]> q = l1 ++ x :: l2).
  { subst q i. rewrite insert_app_r_alt by lia.
    by replace (length l1 - length l1)%nat with 0%nat by lia. }
  rewrite decide_True by (subst q i; rewrite length_app; simpl; lia).
  rewrite Hins. unfold queued_loop, cycle_next. subst cyc. cbn [fst snd].
  destruct l2 as [|h l2].
  - subst q. rewrite length_app. cbn [length seq].
    replace (length l1 + 1)%nat with (Datatypes.S (length l1)) by lia.
    cbn [seq]. destruct l1 as [|h l1].
    + cbn [app lookup list_lookup].
      by rewrite (IH it' rest' [x] 0%nat _ [] x [] Hc).
    + cbn [app lookup list_lookup].
      rewrite (IH it' rest' (h :: l1 ++ [x]) 0%nat _ [] h (l1 ++ [x]) Hc);
        [|done|done|].
      * simpl. by rewrite <- app_assoc.
      * cbn [length]. rewrite !length_app. cbn [length].
        by rewrite Nat.add_1_r.
  - cbn [length seq].
    assert (Hlk : (l1 ++ x :: h :: l2) !! Datatypes.S i = Some h).
    { subst i. rewrite (lookup_app_r l1) by lia.
      replace (Datatypes.S (length l1) - length l1)%nat with 1%nat by lia.
      done. }
    rewrite Hlk.
    rewrite (IH it' rest' (l1 ++ x :: h :: l2) (Datatypes.S i) _
               (l1 ++ [x]) h l2 Hc);
      [|by rewrite <- app_assoc|rewrite length_app; simpl; lia|].
    + cbn [length app firstn take]. rewrite <- !app_assoc. done.
    + subst q. rewrite !length_app. done.
Qed.

Lemma queued_pending values xs qsize n :
  0 < qsize →
  consume next (Z.to_nat qsize + n) values = (xs, Pending) →
  consume (queued_next next generator_stop) (Datatypes.S n)
    (QCreated values qsize)
  = (take (Datatypes.S n) xs, Pending).
Proof.
  intros Hq Hc. pose proof (consume_pending_length _ _ _ _ Hc) as Hlen.
  cbn [consume queued_next]. unfold range.
  destruct (fill_pending (seq 0 (Z.to_nat qsize)) [] values xs n)
    as (it & Hf & Hit); [by rewrite length_seq|].
  rewrite Hf, length_seq. rewrite length_seq in Hit. cbn [app].
  destruct (Z.to_nat qsize) as [|k] eqn:Hk; [lia|].
  destruct xs as [|x0 xs]; [simpl in Hlen; lia|].
  unfold queued_loop, cycle, cycle_next. cbn [fst snd seq firstn take].
  cbn [lookup list_lookup].
  rewrite (queued_drain_pending n it (drop k xs) _ 0%nat _ [] x0 (take k xs));
    [|done|done|done|].
  - cbn [app]. by rewrite take_drop.
  - cbn [length]. rewrite length_take. simpl in Hlen.
    replace (k `min` length xs)%nat with k by lia. done.
Qed.

End QueuedLag.

(** X14: on any upstream, finite or endless, that still has [qsize + n]
    values to give ([qsize] positive), the first [n + 1] values of [queued]
    are the first [n + 1] values of the upstream, in order: the buffer
    delays the stream, it neither reorders nor skips nor repeats, and the
    value yielded at pull [n + 1] is available once the upstream has been
    pulled [qsize + n] times. *)
Theorem queued_lags_upstream :
  ∀ (A S : Type) (generator_stop : bool)
    (values : iterator A S) (xs : list A) (qsize : Z) n,
    0 < qsize →
    consumed (Z.to_nat qsize + n) values = (xs, Pending) →
    observe (Datatypes.S n) (queued generator_stop values qsize)
    = (take (Datatypes.S n) xs, Pending).
Proof.
  intros A S generator_stop values xs qsize n Hq Hc.
  by apply queued_pending.
Qed.

Lemma queued_lags_upstream_witness :
  observe 3 (queued true (iter [1; 2; 3; 4; 5; 6; 7]) 2)
  = (take 3 [1; 2; 3; 4], Pending).
Proof.
  apply (queued_lags_upstream Z (list Z) true (iter [1; 2; 3; 4; 5; 6; 7])
           [1; 2; 3; 4] 2 2%nat); [lia|reflexivity].
Defined.

(** X15: with [qsize <= 0], [queued] yields nothing and raises nothing,
    whatever the upstream: nothing is pulled from it, the cycle over the
    empty range ends at once. *)
Theorem queued_without_buffer_is_empty :
  ∀ (A S : Type) (generator_stop : bool) (values : iterator A S)
    (qsize : Z) n,
    qsize ≤ 0 →
    observe (Datatypes.S n) (queued generator_stop values qsize) = ([], Ends).
Proof.
  intros A S generator_stop values qsize n Hq.
  unfold observe, queued, generator_call, consumed. cbn [frame resume].
  cbn [consume queued_next]. unfold range.
  replace (Z.to_nat qsize) with 0%nat by lia. done.
Qed.

Lemma queued_without_buffer_is_empty_witness :
  observe 1 (queued false (iter [1; 2; 3]) 0) = ([], Ends).
Proof.
  apply (queued_without_buffer_is_empty Z (list Z) false (iter [1; 2; 3])
           0 0%nat).
  lia.
Defined.

(** ** pre_delayed, post_delayed: the time spent and refused *)

Lemma Qc_of_nat_succ (n : nat) (d : Qc) :
  (Q2Qc (inject_Z (Z.of_nat (Datatypes.S n))) * d
   = Q2Qc (inject_Z (Z.of_nat n)) * d + d)%Qc.
Proof. rewrite Nat2Z.inj_succ, <- Z.add_1_r, of_int_Qc_succ. ring. Qed.

Section DelayedTime.
Context {A S : Type}.
Variable next : S → pull A S.
Variable delay : Qc.

Lemma pre_delayed_slept n : ∀ values slept it slept',
  (0 ≤ delay)%Qc →
  frame_after (pre_delayed_next next delay) n (values, slept)
  = Some (it, slept') →
  slept' = (slept + Q2Qc (inject_Z (Z.of_nat n)) * delay)%Qc.
Proof.
  induction n as [|n IH]; intros values slept it slept' Hd Hf.
  - injection Hf as _ <-. change (Q2Qc (inject_Z (Z.of_nat 0))) with 0%Qc.
    ring.
  - cbn [frame_after] in Hf. unfold pre_delayed_next at 1 in Hf.
    cbn [fst snd] in Hf. destruct (next values) as [v s'| |e]; [|done..].
    rewrite sleep_returns in Hf by done.
    rewrite (IH _ _ _ _ Hd Hf), Qc_of_nat_succ. ring.
Qed.

Lemma post_delayed_slept n : ∀ values slept g slept',
  (0 ≤ delay)%Qc →
  (frame_after (post_delayed_next next delay) n (PostSuspended values, slept)
   = Some (g, slept') →
   slept' = (slept + Q2Qc (inject_Z (Z.of_nat n)) * delay)%Qc)
  ∧ (frame_after (post_delayed_next next delay) (Datatypes.S n)
       (PostCreated values, slept) = Some (g, slept') →
     slept' = (slept + Q2Qc (inject_Z (Z.of_nat n)) * delay)%Qc).
Proof.
  induction n as [|n IH]; intros values slept g slept' Hd.
  - split; intros Hf.
    + injection Hf as _ <-. change (Q2Qc (inject_Z (Z.of_nat 0))) with 0%Qc.
      ring.
    + cbn [frame_after] in Hf. unfold post_delayed_next, post_loop in Hf.
      cbn [fst snd] in Hf. destruct (next values) as [v s'| |e]; [|done..].
      injection Hf as _ <-. change (Q2Qc (inject_Z (Z.of_nat 0))) with 0%Qc.
      ring.
  - split; intros Hf.
    + cbn [frame_after] in Hf. unfold post_delayed_next at 1 in Hf.
      cbn [fst snd] in Hf. rewrite sleep_returns in Hf by done.
      unfold post_loop in Hf. destruct (next values) as [v s'| |e]; [|done..].
      rewrite (proj1 (IH _ _ _ _ Hd) Hf), Qc_of_nat_succ. ring.
    + change (frame_after (post_delayed_next next delay)
                (Datatypes.S (Datatypes.S n)) (PostCreated values, slept))
        with (match post_delayed_next next delay (PostCreated values, slept)
              with
              | Yield _ s' =>
                  frame_after (post_delayed_next next delay)
                    (Datatypes.S n) s'
              | Exhausted => None
              | Raised _ => None
              end) in Hf.
      unfold post_delayed_next at 1, post_loop in Hf. cbn [fst snd] in Hf.
      destruct (next values) as [v s'| |e]; [|done..].
      change (frame_after (post_delayed_next next delay) (Datatypes.S n)
                (PostSuspended s', slept))
        with (match post_delayed_next next delay (PostSuspended s', slept)
              with
              | Yield _ s'' =>
                  frame_after (post_delayed_next next delay) n s''
              | Exhausted => None
              | Raised _ => None
              end) in Hf.
      unfold post_delayed_next at 1 in Hf. cbn [fst snd] in Hf.
      rewrite sleep_returns in Hf by done. unfold post_loop in Hf.
      destruct (next s') as [v' s''| |e]; [|done..].
      rewrite (proj1 (IH _ _ _ _ Hd) Hf), Qc_of_nat_succ. ring.
Qed.

End DelayedTime.

(** X16: with a non-negative delay, a consumer that has obtained [n] values
    from [pre_delayed] has been kept waiting [n * delay] seconds by it, one
    delay before each value; one that has obtained [n + 1] values from
    [post_delayed] has been kept waiting [n * delay] seconds: the first
    value comes at once and each later one a delay after it was asked
    for. *)
Theorem delayed_time_slept :
  ∀ (A S : Type) (values : iterator A S) (delay : Qc) n,
    (0 ≤ delay)%Qc →
    (∀ it slept,
        frame_after (pre_delayed_next (resume values) delay) n
          (frame values, Q2Qc 0) = Some (it, slept) →
        slept = (Q2Qc (inject_Z (Z.of_nat n)) * delay)%Qc)
    ∧ (∀ g slept,
        frame_after (post_delayed_next (resume values) delay) (Datatypes.S n)
          (PostCreated (frame values), Q2Qc 0) = Some (g, slept) →
        slept = (Q2Qc (inject_Z (Z.of_nat n)) * delay)%Qc).
Proof.
  intros A S values delay n Hd. split.
  - intros it slept Hf.
    rewrite (pre_delayed_slept _ _ _ _ _ _ _ Hd Hf).
    change (Q2Qc 0) with 0%Qc. ring.
  - intros g slept Hf.
    rewrite (proj2 (post_delayed_slept _ _ n _ _ _ _ Hd) Hf).
    change (Q2Qc 0) with 0%Qc. ring.
Qed.

Lemma delayed_time_slept_witness :
  (∀ it slept,
      frame_after (pre_delayed_next list_next (Q2Qc (1 # 2))) 2
        ([true; false; true], Q2Qc 0) = Some (it, slept) →
      slept = (Q2Qc (inject_Z (Z.of_nat 2)) * Q2Qc (1 # 2))%Qc)
  ∧ (∀ g slept,
      frame_after (post_delayed_next list_next (Q2Qc (1 # 2))) 3
        (PostCreated [true; false; true], Q2Qc 0) = Some (g, slept) →
      slept = (Q2Qc (inject_Z (Z.of_nat 2)) * Q2Qc (1 # 2))%Qc).
Proof.
  apply (delayed_time_slept bool (list bool) (iter [true; false; true])
           (Q2Qc (1 # 2)) 2%nat).
  vm_compute. discriminate.
Defined.

Lemma sleep_refuses (delay slept : Qc) :
  (delay < 0)%Qc → sleep delay slept = Thrown ValueError.
Proof.
  intros Hd. unfold sleep. destruct (Qclt_le_dec delay (Q2Qc 0)) as [_|Hle].
  - done.
  - by apply Qcle_not_lt in Hle.
Qed.

(** X17: a negative delay is refused by [time.sleep], not by the
    combinators: both calls return a generator; [pre_delayed] then raises
    [ValueError] at the first pull that finds an upstream element, before
    yielding it; [post_delayed] yields the first upstream element and raises
    [ValueError] at the second pull, whether or not the upstream has more. *)
Theorem delayed_negative_delay :
  ∀ (A S : Type) (values : iterator A S) (delay : Qc) v it' n,
    (delay < 0)%Qc → advance values = Yield v it' →
    ¬ raises (pre_delayed values delay)
    ∧ observe (Datatypes.S n) (pre_delayed values delay)
      = ([], Throws ValueError)
    ∧ ¬ raises (post_delayed values delay)
    ∧ observe (Datatypes.S (Datatypes.S n)) (post_delayed values delay)
      = ([v], Throws ValueError).
Proof.
  intros A S values delay v it' n Hd Hadv. unfold advance in Hadv.
  destruct (resume values (frame values)) as [v0 s'| |e] eqn:Hr; [|done..].
  injection Hadv as -> _.
  split; [intros [e He]; discriminate He|]. split.
  { unfold observe, pre_delayed, generator_call, consumed.
    cbn [frame resume consume]. unfold pre_delayed_next. cbn [fst snd].
    by rewrite Hr, sleep_refuses. }
  split; [intros [e He]; discriminate He|].
  unfold observe, post_delayed, generator_call, consumed.
  cbn [frame resume consume]. unfold post_delayed_next at 1.
  cbn [fst snd]. unfold post_loop. rewrite Hr.
  unfold post_delayed_next at 1. cbn [fst snd].
  by rewrite sleep_refuses.
Qed.

Lemma delayed_negative_delay_witness :
  ¬ raises (pre_delayed (iter [true]) (Q2Qc (-1)))
  ∧ observe 1 (pre_delayed (iter [true]) (Q2Qc (-1)))
    = ([], Throws ValueError)
  ∧ ¬ raises (post_delayed (iter [true]) (Q2Qc (-1)))
  ∧ observe 2 (post_delayed (iter [true]) (Q2Qc (-1)))
    = ([true], Throws ValueError).
Proof.
  apply (delayed_negative_delay bool (list bool) (iter [true]) (Q2Qc (-1))
           true (iter []) 0%nat); reflexivity.
Defined.

(** ** sin_values, cos_values *)

Section Waves.
Context {T : Type}.
Variable wave : T → T.
Variable radians : nat → T.

Lemma cycle_next_range (m i : nat) :
  (0 < m)%nat → (i ≤ m)%nat →
  cycle_next (seq i (m - i), seq 0 m)
  = Yield (i mod m)%nat
      (seq (Datatypes.S (i mod m)) (m - Datatypes.S (i mod m)), seq 0 m).
Proof.
  intros Hm Hi. unfold cycle_next. cbn [fst snd].
  destruct (decide (i = m)) as [->|Hne].
  - rewrite Nat.sub_diag, Nat.Div0.mod_same. cbn [seq].
    destruct m as [|m]; [lia|]. cbn [seq].
    by replace (Datatypes.S m - 1)%nat with m by lia.
  - rewrite Nat.mod_small by lia.
    replace (m - i)%nat with (Datatypes.S (m - Datatypes.S i)) by lia.
    done.
Qed.

(** A cycle over [range(m)] that stands at position [i] goes on for ever,
    counting modulo [m]. *)
Lemma wave_from (m : nat) n : ∀ i,
  (0 < m)%nat → (i ≤ m)%nat →
  consume (wave_next wave radians) n (seq i (m - i), seq 0 m)
  = (map (λ k, wave (radians ((i + k) mod m))) (seq 0 n), Pending).
Proof.
  induction n as [|n IH]; intros i Hm Hi; [done|].
  cbn [consume]. unfold wave_next at 1.
  rewrite cycle_next_range by done.
  assert (Hlt : (i mod m < m)%nat) by (apply Nat.mod_upper_bound; lia).
  rewrite (IH (Datatypes.S (i mod m))) by lia.
  cbn [seq map]. f_equal. f_equal.
  - by rewrite Nat.add_0_r.
  - rewrite <- seq_shift, map_map. apply map_ext. intros k.
    do 2 f_equal.
    replace (i + Datatypes.S k)%nat with (i + (1 + k))%nat by lia.
    rewrite <- (Nat.Div0.add_mod_idemp_l i). f_equal. lia.
Qed.

Lemma wave_values n :
  consume (wave_next wave radians) n (cycle (range 360))
  = (map (λ k, wave (radians (k mod 360)%nat)) (seq 0 n), Pending).
Proof.
  pose proof (wave_from 360 n 0%nat) as Hw.
  rewrite Nat.sub_0_r in Hw. apply Hw; lia.
Qed.

End Waves.

(** X18: [sin_values] and [cos_values] never end and never raise: after any
    number [n] of pulls the consumer has [n] values, and the value at
    position [k] (from 0) is the sine, respectively the cosine, of
    [radians(k mod 360)]; the degree counter starts at 0, grows by one per
    value and wraps from 359 to 0. *)
Theorem wave_values_periodic :
  ∀ (T : Type) (sin cos : T → T) (radians : nat → T) n,
    observe n (sin_values sin radians)
    = (map (λ k, sin (radians (k mod 360)%nat)) (seq 0 n), Pending)
    ∧ observe n (cos_values cos radians)
      = (map (λ k, cos (radians (k mod 360)%nat)) (seq 0 n), Pending).
Proof.
  intros T sin cos radians n. split; apply wave_values.
Qed.
